(** * beets: glue between metadata sources and the matching logic

    A shallow embedding of [beets/autotag/hooks.py]: the [Distance]
    penalty accumulator, the string distance [string_dist], the
    aggregation of candidate sources and the candidate records
    [AlbumInfo] / [TrackInfo].

    Conventions of the embedding.
    - A Python [float] (and an [int] mixed with floats) is an exact
      rational of [Q]; the float comparison [==] is [Qeq_bool].  The
      development is about the arithmetic the code performs, not about
      the rounding of IEEE doubles.
    - A Python exception is a constructor of [exn]; code that can raise
      returns a [result].  A method that mutates [self] is a function
      from the state before to the outcome and the state after, so that
      what an aborted call leaves behind can be stated.
    - A [dict] that the code iterates over is an association list in
      insertion order (Python dicts keep it); a dict that is only looked
      up is a [gmap]. *)

From Stdlib Require Import List String Ascii ZArith QArith Lia Lqa Bool.
From Stdlib Require Import Permutation Sorted OrdersEx.
From stdpp Require Import gmap strings.
Import ListNotations.

Open Scope Q_scope.
Open Scope string_scope.
Open Scope list_scope.

(** ** Exceptions and results *)

Inductive exn : Type :=
| ValueError
| KeyError (key : string)
| TypeError
| AttributeError
| MusicBrainzAPIError
| OtherError (name : string).

Inductive result (A : Type) : Type :=
| Ok (a : A)
| Raise (e : exn).

Arguments Ok {A} a.
Arguments Raise {A} e.

Definition rbind {A B} (r : result A) (k : A -> result B) : result B :=
  match r with
  | Ok a => k a
  | Raise e => Raise e
  end.

Declare Scope result_scope.
Delimit Scope result_scope with result.
Notation "'let*' x ':=' r 'in' k" := (rbind r (fun x => k))
  (at level 10, x name, r at level 100, k at level 200) : result_scope.
Open Scope result_scope.

(** ** Python numbers as rationals *)

(** [bool(x)] of a float: false exactly for zero. *)
Definition truthy (x : Q) : bool := negb (Qeq_bool x 0).

Definition Qltb (x y : Q) : bool := negb (Qle_bool y x).

(** The builtin [sum] of a list of floats. *)
Definition sum (l : list Q) : Q := fold_left Qplus l 0.

(** [float(len(l))]. *)
Definition len {A} (l : list A) : Q := inject_Z (Z.of_nat (length l)).

(** [max(a, b)] of two floats: the first of the largest. *)
Definition pymax (a b : Q) : Q := if Qltb a b then b else a.

(** [min(a, b)] of two floats: the first of the smallest. *)
Definition pymin (a b : Q) : Q := if Qltb b a then b else a.

(** ** String distance *)

(** The text functions of libraries that [hooks.py] calls and that work
    from Unicode tables or the regular-expression engine.  The code is
    verified for every behaviour of them. *)
Class TextOps : Type := {
  (** [unidecode.unidecode]: transliteration to ASCII. *)
  unidecode : string -> string;
  (** [beets.util.as_string]. *)
  as_string : string -> string;
  (** [str.lower]. *)
  str_lower : string -> string;
  (** [re.sub(pattern, repl, string)], the pattern given by its source. *)
  re_sub : string -> string -> string -> string
}.

(** [jellyfish.levenshtein_distance]: the number of insertions,
    deletions and substitutions, by the defining recurrence. *)
Fixpoint levenshtein_list (s : list ascii) : list ascii -> nat :=
  fix inner (t : list ascii) : nat :=
    match s, t with
    | [], _ => length t
    | _, [] => length s
    | a :: s', b :: t' =>
        Nat.min (Nat.min (S (levenshtein_list s' t)) (S (inner t')))
                ((if Ascii.eqb a b then 0 else 1) + levenshtein_list s' t')
    end.

Definition levenshtein_distance (s t : string) : nat :=
  levenshtein_list (list_ascii_of_string s) (list_ascii_of_string t).

(** [s.endswith(suffix)]. *)
Definition endswith (s suffix : string) : bool :=
  Nat.leb (String.length suffix) (String.length s)
  && String.eqb
       (substring (String.length s - String.length suffix)
          (String.length suffix) s)
       suffix.

(** [s[:-n]] for a positive [n]. *)
Definition drop_last (n : nat) (s : string) : string :=
  substring 0 (String.length s - n) s.

(** Words that can be moved to the end of a string using a comma. *)
Definition SD_END_WORDS : list string := ["the"; "a"; "an"].

(** Reduced weights for certain portions of the string. *)
Definition SD_PATTERNS : list (string * Q) :=
  [ ("^the ", 1 # 10);
    ("[\[\(]?(ep|single)[\]\)]?", 0);
    ("[\[\(]?(featuring|feat|ft)[\. :].+", 1 # 10);
    ("\(.*?\)", 3 # 10);
    ("\[.*?\]", 3 # 10);
    ("(, )?(pt\.|part) .+", 2 # 10) ].

(** Replacements to use before testing distance. *)
Definition SD_REPLACE : list (string * string) := [ ("&", "and") ].

(** The working variables of the loop of [string_dist] over
    [SD_PATTERNS]. *)
Record sd_state : Type := mk_sd {
  sd_str1 : string;
  sd_str2 : string;
  base_dist : Q;
  penalty : Q
}.

(** The score that [string_dist] returns from a loop state. *)
Definition sd_score (st : sd_state) : Q := base_dist st + penalty st.

(** What the loop over [SD_PATTERNS] keeps true. *)
Definition sd_inv (bound : Q) (st : sd_state) : Prop :=
  0 <= base_dist st /\ 0 <= penalty st /\ sd_score st <= bound.

Section StringDist.

Context {text : TextOps}.

Definition _string_dist_basic (str1 str2 : string) : Q :=
  let str1 := as_string (unidecode str1) in
  let str2 := as_string (unidecode str2) in
  let str1 := re_sub "[^a-z0-9]" "" (str_lower str1) in
  let str2 := re_sub "[^a-z0-9]" "" (str_lower str2) in
  if String.eqb str1 "" && String.eqb str2 "" then 0
  else
    inject_Z (Z.of_nat (levenshtein_distance str1 str2))
    / inject_Z (Z.of_nat (Nat.max (String.length str1) (String.length str2))).

(** One word of the loop over [SD_END_WORDS], for one of the strings. *)
Definition move_end_word (word str : string) : string :=
  if endswith str (", " ++ word)
  then word ++ " " ++ drop_last (String.length word + 2) str
  else str.

Definition end_words_step (strs : string * string) (word : string)
  : string * string :=
  (move_end_word word (fst strs), move_end_word word (snd strs)).

(** One pair of the loop over [SD_REPLACE]. *)
Definition replace_step (strs : string * string) (pr : string * string)
  : string * string :=
  (re_sub (fst pr) (snd pr) (fst strs), re_sub (fst pr) (snd pr) (snd strs)).

(** The body of the loop over [SD_PATTERNS]. *)
Definition pattern_step (st : sd_state) (pw : string * Q) : sd_state :=
  let (pat, weight) := pw in
  let case_str1 := re_sub pat "" (sd_str1 st) in
  let case_str2 := re_sub pat "" (sd_str2 st) in
  if negb (String.eqb case_str1 (sd_str1 st))
     || negb (String.eqb case_str2 (sd_str2 st))
  then
    let case_dist := _string_dist_basic case_str1 case_str2 in
    let case_delta := pymax 0 (base_dist st - case_dist) in
    if Qeq_bool case_delta 0 then st
    else mk_sd case_str1 case_str2 case_dist (penalty st + weight * case_delta)
  else st.

(** The two strings as they enter the loop over [SD_PATTERNS]: lowered,
    end words moved to the front, [SD_REPLACE] applied. *)
Definition sd_normalize (str1 str2 : string) : string * string :=
  let str1 := str_lower str1 in
  let str2 := str_lower str2 in
  let strs := fold_left end_words_step SD_END_WORDS (str1, str2) in
  fold_left replace_step SD_REPLACE strs.

Definition sd_initial (strs : string * string) : sd_state :=
  mk_sd (fst strs) (snd strs) (_string_dist_basic (fst strs) (snd strs)) 0.

Definition string_dist (str1 str2 : option string) : Q :=
  match str1, str2 with
  | None, None => 0
  | None, Some _ | Some _, None => 1
  | Some str1, Some str2 =>
      let st :=
        fold_left pattern_step SD_PATTERNS
          (sd_initial (sd_normalize str1 str2)) in
      base_dist st + penalty st
  end.

End StringDist.

(** ** Insertion-ordered dictionaries with string keys *)

Definition dict (V : Type) : Type := list (string * V).

Fixpoint dict_get {V} (d : dict V) (key : string) : option V :=
  match d with
  | [] => None
  | (k, v) :: rest => if String.eqb k key then Some v else dict_get rest key
  end.

Definition dict_keys {V} (d : dict V) : list string := map fst d.

(** [d.setdefault(key, []).extend(vals)]: the list stored under [key]
    grows in place; a new key goes to the end of the dictionary. *)
Fixpoint setdefault_extend (d : dict (list Q)) (key : string) (vals : list Q)
  : dict (list Q) :=
  match d with
  | [] => [(key, vals)]
  | (k, l) :: rest =>
      if String.eqb k key then (k, l ++ vals) :: rest
      else (k, l) :: setdefault_extend rest key vals
  end.

(** The keys of a Python dict are pairwise different. *)
Definition wf_dict {V} (d : dict V) : Prop := NoDup (dict_keys d).

(** ** The text functions on plain ASCII

    An executable instance of [TextOps] for ASCII strings, on which
    [unidecode] and [as_string] change nothing: a backtracking matcher
    for the constructs that the patterns of [hooks.py] use, in the
    priority order of Python's [re] (alternatives left to right, greedy
    repetition longest first, lazy repetition shortest first). *)

Module PlainText.

Inductive regex : Type :=
| Lit (s : string)
| AnyChar
| Class (negated : bool) (ranges : list (ascii * ascii))
| Bol
| Seq (r1 r2 : regex)
| Alt (r1 r2 : regex)
| Opt (r : regex)
| LazyStar (r : regex)
| Plus (r : regex).

Fixpoint strip_prefix (p s : list ascii) : option (list ascii) :=
  match p, s with
  | [], _ => Some s
  | _ :: _, [] => None
  | a :: p', b :: s' => if Ascii.eqb a b then strip_prefix p' s' else None
  end.

Definition in_ranges (c : ascii) (ranges : list (ascii * ascii)) : bool :=
  existsb
    (fun r => (nat_of_ascii (fst r) <=? nat_of_ascii c)%nat
              && (nat_of_ascii c <=? nat_of_ascii (snd r))%nat)
    ranges.

Definition newline : ascii := ascii_of_nat 10.

(** [rmatch r start s k]: match [r] at the front of [s], [start] telling
    whether this is the start of the subject, and hand what is left to
    the continuation [k]; the first success in priority order wins. *)
Fixpoint rmatch (r : regex) (start : bool) (s : list ascii)
    (k : bool -> list ascii -> option (list ascii)) {struct r}
  : option (list ascii) :=
  match r with
  | Lit lit =>
      match strip_prefix (list_ascii_of_string lit) s with
      | Some rest => k (start && String.eqb lit "") rest
      | None => None
      end
  | AnyChar =>
      match s with
      | c :: rest => if Ascii.eqb c newline then None else k false rest
      | [] => None
      end
  | Class negated ranges =>
      match s with
      | c :: rest =>
          if xorb negated (in_ranges c ranges) then k false rest else None
      | [] => None
      end
  | Bol => if start then k start s else None
  | Seq r1 r2 => rmatch r1 start s (fun st rest => rmatch r2 st rest k)
  | Alt r1 r2 =>
      match rmatch r1 start s k with
      | Some x => Some x
      | None => rmatch r2 start s k
      end
  | Opt r1 =>
      match rmatch r1 start s k with
      | Some x => Some x
      | None => k start s
      end
  | LazyStar r1 =>
      (fix loop (fuel : nat) (st : bool) (s : list ascii) {struct fuel} :=
         match k st s with
         | Some x => Some x
         | None =>
             match fuel with
             | O => None
             | S fuel' =>
                 rmatch r1 st s
                   (fun st' rest =>
                      if (length rest <? length s)%nat
                      then loop fuel' st' rest else None)
             end
         end) (length s) start s
  | Plus r1 =>
      (fix loop (fuel : nat) (st : bool) (s : list ascii) {struct fuel} :=
         match fuel with
         | O => None
         | S fuel' =>
             rmatch r1 st s
               (fun st' rest =>
                  if (length rest <? length s)%nat then
                    match loop fuel' st' rest with
                    | Some x => Some x
                    | None => k st' rest
                    end
                  else k st' rest)
         end) (S (length s)) start s
  end.

(** The scan of [re.sub]: leftmost matches, one after another. *)
Fixpoint sub_scan (fuel : nat) (r : regex) (repl : list ascii) (start : bool)
    (s : list ascii) : list ascii :=
  match fuel with
  | O => s
  | S fuel' =>
      match rmatch r start s (fun _ rest => Some rest) with
      | Some rest =>
          if (length rest <? length s)%nat
          then repl ++ sub_scan fuel' r repl false rest
          else match s with
               | [] => repl
               | c :: s' => repl ++ c :: sub_scan fuel' r repl false s'
               end
      | None =>
          match s with
          | [] => []
          | c :: s' => c :: sub_scan fuel' r repl false s'
          end
      end
  end.

Definition sub (r : regex) (repl subject : string) : string :=
  string_of_list_ascii
    (sub_scan (S (String.length subject)) r (list_ascii_of_string repl) true
       (list_ascii_of_string subject)).

Definition one (c : string) : ascii * ascii :=
  match c with
  | String a _ => (a, a)
  | EmptyString => (zero, zero)
  end.

Definition range (a b : string) : ascii * ascii := (fst (one a), fst (one b)).

(** The compiled forms of the patterns that [hooks.py] hands to
    [re.sub]. *)
Definition compiled : list (string * regex) :=
  [ ("^the ", Seq Bol (Lit "the "));
    ("[\[\(]?(ep|single)[\]\)]?",
     Seq (Opt (Class false [one "["; one "("]))
       (Seq (Alt (Lit "ep") (Lit "single"))
          (Opt (Class false [one "]"; one ")"]))));
    ("[\[\(]?(featuring|feat|ft)[\. :].+",
     Seq (Opt (Class false [one "["; one "("]))
       (Seq (Alt (Lit "featuring") (Alt (Lit "feat") (Lit "ft")))
          (Seq (Class false [one "."; one " "; one ":"]) (Plus AnyChar))));
    ("\(.*?\)", Seq (Lit "(") (Seq (LazyStar AnyChar) (Lit ")")));
    ("\[.*?\]", Seq (Lit "[") (Seq (LazyStar AnyChar) (Lit "]")));
    ("(, )?(pt\.|part) .+",
     Seq (Opt (Lit ", "))
       (Seq (Alt (Lit "pt.") (Lit "part")) (Seq (Lit " ") (Plus AnyChar))));
    ("&", Lit "&");
    ("[^a-z0-9]", Class true [range "a" "z"; range "0" "9"]) ].

Fixpoint compile (table : list (string * regex)) (pattern : string)
  : option regex :=
  match table with
  | [] => None
  | (p, r) :: rest => if String.eqb p pattern then Some r else compile rest pattern
  end.

Definition lower_char (c : ascii) : ascii :=
  let n := nat_of_ascii c in
  if (65 <=? n)%nat && (n <=? 90)%nat then ascii_of_nat (n + 32) else c.

Fixpoint lower (s : string) : string :=
  match s with
  | EmptyString => EmptyString
  | String c s' => String (lower_char c) (lower s')
  end.

Definition text : TextOps := {|
  unidecode := fun s => s;
  as_string := fun s => s;
  str_lower := lower;
  re_sub := fun pattern repl subject =>
    match compile compiled pattern with
    | Some r => sub r repl subject
    | None => subject
    end
|}.

End PlainText.

(** ** The builtin [sorted]

    [sorted] is stable; it is modelled by the stable insertion sort, the
    keys compared with [<] only, as Python does. *)

Fixpoint insert_sorted {A} (lt : A -> A -> bool) (x : A) (l : list A) : list A :=
  match l with
  | [] => [x]
  | y :: l' => if lt y x then y :: insert_sorted lt x l' else x :: l
  end.

Definition sorted {A K} (key : A -> K) (lt : K -> K -> bool) (l : list A)
  : list A :=
  fold_right (insert_sorted (fun a b => lt (key a) (key b))) [] l.

(** [<] on the tuples [(float, str)]: the first components decide unless
    they are equal. *)
Definition tuple_lt (a b : Q * string) : bool :=
  if Qeq_bool (fst a) (fst b) then String.ltb (snd a) (snd b)
  else Qltb (fst a) (fst b).

(** The sort key of [items]: [lambda key_and_dist: (-key_and_dist[1],
    key_and_dist[0])]. *)
Definition items_key (key_and_dist : string * Q) : Q * string :=
  (- snd key_and_dist, fst key_and_dist).

(** [a <= b] on the tuples [(float, str)], as a proposition. *)
Definition tuple_le (a b : Q * string) : Prop :=
  fst a < fst b \/ (fst a == fst b /\ String.compare (snd a) (snd b) <> Gt).

(** The order of the result of [items]: [a] may stand before [b] when
    its value is larger, or the values are equal and its key is not
    after the key of [b]. *)
Definition items_order (a b : string * Q) : Prop :=
  snd b < snd a \/ (snd a == snd b /\ String.leb (fst a) (fst b) = true).

(** ** The penalty accumulator [Distance] *)

Module Distance.

(** [self._penalties]: key to the list of penalties added under it.  The
    attribute [self.tracks] is not read by any method of this file and
    is left out. *)
Record t : Type := mk { _penalties : dict (list Q) }.

(** The objects that may be handed to [update] and to the comparison
    operators; an accumulator comes with the identity of the object. *)
Inductive pyval : Type :=
| PNone
| PNum (x : Q)
| PStr (s : string)
| PDistance (id : nat) (d : t).

(** [Distance()]. *)
Definition init : t := mk [].

(** The class-wide weight table [Distance._weights], read from the
    configuration once. *)
Definition weights : Type := gmap string Q.

Section WithWeights.

Variable _weights : weights.

(** [self._weights[key]]. *)
Definition weight (key : string) : result Q :=
  match _weights !! key with
  | Some w => Ok w
  | None => Raise (KeyError key)
  end.

(** The loop of [max_distance] over [self._penalties.items()]. *)
Fixpoint max_distance_loop (items : dict (list Q)) (dist_max : Q) : result Q :=
  match items with
  | [] => Ok dist_max
  | (key, penalty) :: rest =>
      let* w := weight key in
      max_distance_loop rest (dist_max + len penalty * w)
  end.

Definition max_distance (self : t) : result Q :=
  max_distance_loop (_penalties self) 0.

(** The loop of [raw_distance]. *)
Fixpoint raw_distance_loop (items : dict (list Q)) (dist_raw : Q) : result Q :=
  match items with
  | [] => Ok dist_raw
  | (key, penalty) :: rest =>
      let* w := weight key in
      raw_distance_loop rest (dist_raw + sum penalty * w)
  end.

Definition raw_distance (self : t) : result Q :=
  raw_distance_loop (_penalties self) 0.

Definition distance (self : t) : result Q :=
  let* dist_max := max_distance self in
  if truthy dist_max then
    let* raw := raw_distance self in
    let* m := max_distance self in
    Ok (raw / m)
  else Ok 0.

(** [self[key]]. *)
Definition __getitem__ (self : t) (key : string) : result Q :=
  match dict_get (_penalties self) key with
  | None => Raise (KeyError key)
  | Some penalty =>
      let* w := weight key in
      let dist := sum penalty * w in
      let* dist_max := max_distance self in
      if truthy dist_max then Ok (dist / dist_max) else Ok 0
  end.

(** The loop of [items] over the keys of [self._penalties]. *)
Fixpoint items_loop (self : t) (keys : list string) (list_ : list (string * Q))
  : result (list (string * Q)) :=
  match keys with
  | [] => Ok list_
  | key :: rest =>
      let* dist := __getitem__ self key in
      if truthy dist then items_loop self rest (list_ ++ [(key, dist)])
      else items_loop self rest list_
  end.

Definition items (self : t) : result (list (string * Q)) :=
  let* list_ := items_loop self (dict_keys (_penalties self)) [] in
  Ok (sorted items_key tuple_lt list_).

(** *** Comparison with numbers and with other accumulators *)

(** [self.distance == y] for a number [y]. *)
Definition eq_number (self : t) (y : Q) : result bool :=
  let* d := distance self in Ok (Qeq_bool d y).

(** [self.distance < y] for a number [y]. *)
Definition lt_number (self : t) (y : Q) : result bool :=
  let* d := distance self in Ok (Qltb d y).

(** [other.__gt__(x)] as [functools.total_ordering] derives it from
    [__lt__] and [__eq__]: [not (other < x) and other != x]. *)
Definition gt_number (other : t) (x : Q) : result bool :=
  let* op_result := lt_number other x in
  if op_result then Ok false
  else let* e := eq_number other x in Ok (negb e).

(** The operator [x == other] with the float [x] on the left.  The
    method [float.__eq__] answers for a number; for any other object it
    returns [NotImplemented] and Python asks the reflected
    [other.__eq__(x)]; when nothing answers the objects are compared by
    identity, and a float is never identical to them. *)
Definition float_eq (x : Q) (other : pyval) : result bool :=
  match other with
  | PNum y => Ok (Qeq_bool x y)
  | PDistance _ d => eq_number d x
  | PNone | PStr _ => Ok false
  end.

(** The operator [x < other] with the float [x] on the left: as above
    with the reflected [other.__gt__(x)], and a [TypeError] when nothing
    answers. *)
Definition float_lt (x : Q) (other : pyval) : result bool :=
  match other with
  | PNum y => Ok (Qltb x y)
  | PDistance _ d => gt_number d x
  | PNone | PStr _ => Raise TypeError
  end.

Definition __eq__ (self : t) (other : pyval) : result bool :=
  let* d := distance self in float_eq d other.

Definition __lt__ (self : t) (other : pyval) : result bool :=
  let* d := distance self in float_lt d other.

(** The operator [a == b]: the left operand answers first, then the
    reflected method of the right one, then identity. *)
Definition op_eq (a b : pyval) : result bool :=
  match a, b with
  | PDistance _ d, _ => __eq__ d b
  | PNum x, _ => float_eq x b
  | _, PDistance _ d => __eq__ d a
  | PNone, PNone => Ok true
  | PStr s, PStr s' => Ok (String.eqb s s')
  | _, _ => Ok false
  end.

End WithWeights.

(** *** The quantities the specification speaks of *)

(** The sum of a list of numbers. *)
Definition Qsum (l : list Q) : Q := fold_right Qplus 0 l.

(** The weight of a key, zero for a key without one. *)
Definition weight_of (W : weights) (key : string) : Q := default 0 (W !! key).

(** Every key with recorded penalties has a configured weight. *)
Definition configured (W : weights) (self : t) : Prop :=
  Forall (fun key => is_Some (W !! key)) (dict_keys (_penalties self)).

(** Sum over keys of (sum of that key's values times the key's weight). *)
Definition weighted_sum (W : weights) (ps : dict (list Q)) : Q :=
  Qsum (map (fun kp => Qsum (snd kp) * weight_of W (fst kp)) ps).

(** Sum over keys of (count of that key's values times the key's
    weight). *)
Definition weighted_count (W : weights) (ps : dict (list Q)) : Q :=
  Qsum (map (fun kp => len (snd kp) * weight_of W (fst kp)) ps).

(** The per-key values [self[key]] added up over the given keys. *)
Fixpoint per_key_sum (W : weights) (self : t) (keys : list string) : result Q :=
  match keys with
  | [] => Ok 0
  | key :: rest =>
      let* x := __getitem__ W self key in
      let* s := per_key_sum W self rest in
      Ok (x + s)
  end.

(** The penalties that the specification has [add_number] append: one
    1.0 per unit of the absolute difference, or a single 0.0. *)
Definition number_penalties (number1 number2 : Z) : list Q :=
  if Z.eqb number1 number2 then [0]
  else repeat 1 (Z.to_nat (Z.abs (number1 - number2))).

(** The accumulators with no key but [key], which holds [penalty]. *)
Definition single_key (key : string) (penalty : list Q) (self : t) : Prop :=
  (_penalties self = [] /\ penalty = []) \/ _penalties self = [(key, penalty)].

(** *** Adding components *)

(** A method that mutates [self]: the outcome and the state it leaves. *)
Definition method (A : Type) : Type := t -> result A * t.

Definition mret {A} (a : A) : method A := fun self => (Ok a, self).

Definition mseq {A B} (m : method A) (k : A -> method B) : method B :=
  fun self =>
    match m self with
    | (Ok a, self') => k a self'
    | (Raise e, self') => (Raise e, self')
    end.

Definition update (dist : pyval) : method unit := fun self =>
  match dist with
  | PDistance _ d =>
      (Ok tt,
       mk (fold_left
             (fun ps kp => setdefault_extend ps (fst kp) (snd kp))
             (_penalties d) (_penalties self)))
  | _ => (Raise ValueError, self)
  end.

Definition add (key : string) (dist : Q) : method unit := fun self =>
  if negb (Qle_bool 0 dist && Qle_bool dist 1) then (Raise ValueError, self)
  else (Ok tt, mk (setdefault_extend (_penalties self) key [dist])).

Section Matching.

(** The values compared by [add_equality] and [add_priority], with
    their [==]. *)
Context {V : Type} (V_eqb : V -> V -> bool).

(** An option is a plain value or a compiled regular expression, given
    by what its [match] answers. *)
Inductive matcher : Type :=
| Literal (v : V)
| Pattern (matches : V -> bool).

(** [options] is a list (or tuple) of options or a single one. *)
Inductive options : Type :=
| Several (opts : list matcher)
| Single (opt : matcher).

Definition as_list (opts : options) : list matcher :=
  match opts with
  | Several l => l
  | Single o => [o]
  end.

Definition _eq (value1 : matcher) (value2 : V) : bool :=
  match value1 with
  | Pattern matches => matches value2
  | Literal v => V_eqb v value2
  end.

Definition add_equality (key : string) (value : V) (opts : options)
  : method unit :=
  let dist := if existsb (fun opt => _eq opt value) (as_list opts)
              then 0 else 1 in
  add key dist.

(** The loop of [add_priority] over [enumerate(options)]. *)
Fixpoint priority_loop (value : V) (unit_ : Q) (i : nat) (opts : list matcher)
  : Q :=
  match opts with
  | [] => 1
  | opt :: rest =>
      if _eq opt value then inject_Z (Z.of_nat i) * unit_
      else priority_loop value unit_ (S i) rest
  end.

Definition add_priority (key : string) (value : V) (opts : options)
  : method unit :=
  let opts := as_list opts in
  let unit_ := 1 / (if Nat.eqb (length opts) 0 then 1 else len opts) in
  add key (priority_loop value unit_ 0 opts).

End Matching.

Definition add_expr (key : string) (expr : bool) : method unit :=
  if expr then add key 1 else add key 0.

(** [for i in range(n): self.add(key, dist)]. *)
Fixpoint add_times (n : nat) (key : string) (dist : Q) : method unit :=
  match n with
  | O => mret tt
  | S n' => mseq (add key dist) (fun _ => add_times n' key dist)
  end.

Definition add_number (key : string) (number1 number2 : Z) : method unit :=
  let diff := Z.abs (number1 - number2) in
  if negb (Z.eqb diff 0) then add_times (Z.to_nat diff) key 1
  else add key 0.

Definition add_ratio (key : string) (number1 number2 : Q) : method unit :=
  let number := pymax (pymin number1 number2) 0 in
  let dist := if truthy number2 then number / number2 else 0 in
  add key dist.

Definition add_string {text : TextOps} (key : string) (str1 str2 : option string)
  : method unit :=
  add key (string_dist str1 str2).

End Distance.

(** ** Sample accumulators *)

(** A weight table and an accumulator with three keys; the total is
    (0*1 + (1/2)*2 + (1/4 + 3/4)*1) / (1*1 + 1*2 + 2*1) = 2/5. *)
Definition sample_weights : Distance.weights :=
  list_to_map [("source", 1); ("album", 2); ("medium", 1); ("year", 1)].

Definition sample_distance : Distance.t :=
  Distance.mk
    [("source", [0]); ("album", [1 # 2]); ("medium", [1 # 4; 3 # 4])].

(** Three keys of equal value, not in alphabetical order. *)
Definition equal_weights : Distance.weights :=
  list_to_map [("a", 1); ("b", 1); ("c", 1)].

Definition equal_distance : Distance.t :=
  Distance.mk [("b", [1 # 2]); ("c", [1 # 2]); ("a", [1 # 2])].

(** ** Aggregation of sources *)

Module Aggregation.

(** What a generator does until it ends: the notifications it sends and
    the values it yields, in order, and the exception that ended it, if
    one did. *)
Inductive action (info : Type) : Type :=
| Sent (event : string) (value : info)
| Yielded (value : info).

Arguments Sent {info} event value.
Arguments Yielded {info} value.

Record run (info : Type) : Type := mk_run {
  actions : list (action info);
  raised : option exn
}.

Arguments mk_run {info} actions raised.
Arguments actions {info} r.
Arguments raised {info} r.

(** The values a run yields to its consumer. *)
Definition yielded {info} (r : run info) : list info :=
  flat_map (fun a => match a with Yielded v => [v] | Sent _ _ => [] end)
    (actions r).

(** The notifications of a run. *)
Definition sent {info} (r : run info) : list (string * info) :=
  flat_map (fun a => match a with Sent e v => [(e, v)] | Yielded _ => [] end)
    (actions r).

Definition done {info} : run info := mk_run [] None.

(** One part of a generator body after another; nothing runs after an
    exception. *)
Definition andthen {info} (r1 r2 : run info) : run info :=
  match raised r1 with
  | Some e => r1
  | None => mk_run (actions r1 ++ actions r2) (raised r2)
  end.

(** [yield from call], where evaluating [call] returns a sequence or
    raises. *)
Definition yield_from {info} (call : result (list info)) : run info :=
  match call with
  | Ok l => mk_run (map Yielded l) None
  | Raise e => mk_run [] (Some e)
  end.

Section WithSources.

(** Candidates, library items and the extra search tags are opaque
    here. *)
Context {info item tags : Type}.

(** The collaborators: the configuration switch, the functions of
    [beets.autotag.mb] and the hooks of [beets.plugins].  Each call
    returns or raises. *)
Record sources : Type := {
  musicbrainz_enabled : bool;
  mb_match_album : option string -> string -> nat -> tags -> result (list info);
  mb_match_track : string -> string -> result (list info);
  mb_album_for_id : string -> result (option info);
  plugins_candidates :
    list item -> string -> string -> bool -> tags -> result (list info);
  plugins_item_candidates : item -> string -> string -> result (list info);
  plugins_album_for_id : string -> result (list (option info))
}.

Variable src : sources.

(** [invoke_mb(call_func, *args)], the call given already applied. *)
Definition invoke_mb (call : result (list info)) : result (list info) :=
  match call with
  | Raise MusicBrainzAPIError => Ok []
  | other => other
  end.

(** Modelled from the spec: the decorator [plugins.notify_info_yielded]
    of [beets/plugins.py], which is not among the sources; after each
    retrieved candidate the event is sent, then the candidate is yielded
    onward. *)
Definition notify_info_yielded (event : string) (r : run info) : run info :=
  mk_run
    (flat_map
       (fun a => match a with
                 | Yielded v => [Sent event v; Yielded v]
                 | Sent e v => [Sent e v]
                 end)
       (actions r))
    (raised r).

(** Truth value of a [str]. *)
Definition nonempty (s : string) : bool := negb (String.eqb s "").

(** The body of [album_candidates], before the decorator. *)
Definition album_candidates_body (items : list item) (artist album : string)
    (va_likely : bool) (extra_tags : tags) : run info :=
  andthen
    (if musicbrainz_enabled src then
       andthen
         (if nonempty artist && nonempty album then
            yield_from
              (invoke_mb
                 (mb_match_album src (Some artist) album (length items)
                    extra_tags))
          else done)
         (if va_likely && nonempty album then
            yield_from
              (invoke_mb
                 (mb_match_album src None album (length items) extra_tags))
          else done)
     else done)
    (yield_from (plugins_candidates src items artist album va_likely extra_tags)).

Definition album_candidates (items : list item) (artist album : string)
    (va_likely : bool) (extra_tags : tags) : run info :=
  notify_info_yielded "albuminfo_received"
    (album_candidates_body items artist album va_likely extra_tags).

Definition item_candidates_body (it : item) (artist title : string) : run info :=
  andthen
    (if musicbrainz_enabled src && nonempty artist && nonempty title then
       yield_from (invoke_mb (mb_match_track src artist title))
     else done)
    (yield_from (plugins_item_candidates src it artist title)).

Definition item_candidates (it : item) (artist title : string) : run info :=
  notify_info_yielded "trackinfo_received"
    (item_candidates_body it artist title).

(** [album_for_mbid]: the notification it sends and what it returns. *)
Definition album_for_mbid (release_id : string)
  : list (action info) * result (option info) :=
  match mb_album_for_id src release_id with
  | Ok (Some album) => ([Sent "albuminfo_received" album], Ok (Some album))
  | Ok None => ([], Ok None)
  | Raise MusicBrainzAPIError => ([], Ok None)
  | Raise e => ([], Raise e)
  end.

(** The loop of [albums_for_id] over the albums of the plugins. *)
Definition plugin_albums (found : list (option info)) : list (action info) :=
  flat_map
    (fun a => match a with
              | Some a => [Sent "albuminfo_received" a; Yielded a]
              | None => []
              end)
    found.

Definition albums_for_id (album_id : string) : run info :=
  match album_for_mbid album_id with
  | (acts, Raise e) => mk_run acts (Some e)
  | (acts, Ok a) =>
      andthen
        (mk_run (acts ++ match a with Some a => [Yielded a] | None => [] end)
           None)
        (match plugins_album_for_id src album_id with
         | Ok found => mk_run (plugin_albums found) None
         | Raise e => mk_run [] (Some e)
         end)
  end.

(** What a search of the primary source contributes: its candidates,
    none when it raised. *)
Definition candidates_of (call : result (list info)) : list info :=
  match call with
  | Ok l => l
  | Raise _ => []
  end.

(** A call that returns, or raises the error of the metadata service. *)
Definition service_error_only {A} (call : result A) : Prop :=
  call = Raise MusicBrainzAPIError \/ exists a, call = Ok a.

End WithSources.

Arguments sources : clear implicits.

(** Sources over numbered candidates: the searches of the primary
    source find 1 and 2, the hook of the plugins raises the service
    error. *)
Definition failing_plugin : sources nat unit unit := {|
  musicbrainz_enabled := true;
  mb_match_album := fun _ _ _ _ => Ok [1%nat; 2%nat];
  mb_match_track := fun _ _ => Ok [];
  mb_album_for_id := fun _ => Ok None;
  plugins_candidates := fun _ _ _ _ _ => Raise MusicBrainzAPIError;
  plugins_item_candidates := fun _ _ _ => Ok [];
  plugins_album_for_id := fun _ => Ok []
|}.

(** The primary source fails every call, the plugins find 7 and 8. *)
Definition failing_musicbrainz : sources nat unit unit := {|
  musicbrainz_enabled := true;
  mb_match_album := fun _ _ _ _ => Raise MusicBrainzAPIError;
  mb_match_track := fun _ _ => Raise MusicBrainzAPIError;
  mb_album_for_id := fun _ => Raise MusicBrainzAPIError;
  plugins_candidates := fun _ _ _ _ _ => Ok [7%nat; 8%nat];
  plugins_item_candidates := fun _ _ _ => Ok [7%nat; 8%nat];
  plugins_album_for_id := fun _ => Ok [Some 7%nat; None; Some 8%nat]
|}.

End Aggregation.

(** ** Candidate records: [AttrDict], [AlbumInfo], [TrackInfo]

    The records are mutable objects that the code shares by reference,
    so they live in a heap from object identities to objects. *)

(** [id(obj)]. *)
Abbreviation loc := positive.

Inductive value : Type :=
| VNone
| VBool (b : bool)
| VInt (n : Z)
| VFloat (x : Q)
| VStr (s : string)
| VRef (obj : loc).

Inductive class : Type := AlbumInfoClass | TrackInfoClass.

(** An [AttrDict] of one of the two classes, its attributes being the
    items of the dictionary, or a [list]. *)
Inductive object : Type :=
| AttrDict (cls : class) (items : dict value)
| PyList (elems : list value).

Abbreviation heap := (gmap loc object).

(** A computation on the heap that returns or raises. *)
Definition prog (A : Type) : Type := heap -> result (A * heap).

Definition ret {A} (a : A) : prog A := fun h => Ok (a, h).

Definition bind {A B} (m : prog A) (k : A -> prog B) : prog B := fun h =>
  match m h with
  | Ok (a, h') => k a h'
  | Raise e => Raise e
  end.

Declare Scope prog_scope.
Delimit Scope prog_scope with prog.
Notation "'let!' x ':=' m 'in' k" := (bind m (fun x => k))
  (at level 10, x name, m at level 100, k at level 200) : prog_scope.

(** A new object gets an identity that no object has. *)
Definition alloc (o : object) : prog loc := fun h =>
  let l := fresh (dom h) in Ok (l, <[l := o]> h).

(** [d[key] = v]: an existing key keeps its place. *)
Fixpoint dict_set {V} (d : dict V) (key : string) (v : V) : dict V :=
  match d with
  | [] => [(key, v)]
  | (k, x) :: rest =>
      if String.eqb k key then (k, v) :: rest
      else (k, x) :: dict_set rest key v
  end.

(** [AttrDict.__setattr__], which is [__setitem__]. *)
Definition __setattr__ (self : loc) (key : string) (v : value) : prog unit :=
  fun h =>
    match h !! self with
    | Some (AttrDict cls items) =>
        Ok (tt, <[self := AttrDict cls (dict_set items key v)]> h)
    | _ => Raise TypeError
    end.

(** [AttrDict.__getattr__]. *)
Definition __getattr__ (self : loc) (attr : string) : prog value := fun h =>
  match h !! self with
  | Some (AttrDict _ items) =>
      match dict_get items attr with
      | Some v => Ok (v, h)
      | None => Raise AttributeError
      end
  | _ => Raise AttributeError
  end.

(** The loop of [dict.update] over the items of the other dictionary. *)
Fixpoint update_loop (self : loc) (items : dict value) : prog unit :=
  match items with
  | [] => ret tt
  | (k, v) :: rest =>
      bind (__setattr__ self k v) (fun _ => update_loop self rest)
  end.

(** [self.update(other)]. *)
Definition update (self other : loc) : prog unit := fun h =>
  match h !! other with
  | Some (AttrDict _ items) => update_loop self items h
  | _ => Raise TypeError
  end.

(** The items that [update] leaves in [dst] when [src] is merged in. *)
Definition merged (dst src : dict value) : dict value :=
  fold_left (fun d kv => dict_set d (fst kv) (snd kv)) src dst.

Module TrackInfo.

(** The attributes that [__init__] sets, in its order, all arguments at
    their default [None]. *)
Definition init_items : dict value :=
  map (fun k => (k, VNone))
    ["title"; "track_id"; "release_track_id"; "artist"; "artist_id";
     "length"; "index"; "media"; "medium"; "medium_index"; "medium_total";
     "artist_sort"; "disctitle"; "artist_credit"; "data_source"; "data_url";
     "lyricist"; "composer"; "composer_sort"; "arranger"; "track_alt";
     "work"; "mb_workid"; "work_disambig"; "bpm"; "initial_key"; "genre"].

(** [TrackInfo()]. *)
Definition init : prog loc := alloc (AttrDict TrackInfoClass init_items).

Definition copy (self : loc) : prog loc :=
  (let! dupe := init in
   let! _ := update dupe self in
   ret dupe)%prog.

End TrackInfo.

Module AlbumInfo.

(** The attributes that [__init__] sets, in its order, every argument
    but [tracks] at its default. *)
Definition init_items (tracks : value) : dict value :=
  map (fun k => (k, VNone)) ["album"; "album_id"; "artist"; "artist_id"]
  ++ [("tracks", tracks)]
  ++ map (fun k => (k, VNone)) ["asin"; "albumtype"]
  ++ [("va", VBool false)]
  ++ map (fun k => (k, VNone))
       ["year"; "month"; "day"; "label"; "mediums"; "artist_sort";
        "releasegroup_id"; "release_group_title"; "catalognum"; "script";
        "language"; "country"; "style"; "genre"; "albumstatus"; "media";
        "albumdisambig"; "releasegroupdisambig"; "artist_credit";
        "original_year"; "original_month"; "original_day"; "data_source";
        "data_url"; "discogs_albumid"; "discogs_labelid"; "discogs_artistid"].

(** [AlbumInfo(tracks)]. *)
Definition init (tracks : value) : prog loc :=
  alloc (AttrDict AlbumInfoClass (init_items tracks)).

(** [track.copy()] for an element of [self.tracks], which the
    annotations make a [TrackInfo]; another value is outside the
    model. *)
Definition copy_track (track : value) : prog loc := fun h =>
  match track with
  | VRef t =>
      match h !! t with
      | Some (AttrDict TrackInfoClass _) => TrackInfo.copy t h
      | _ => Raise TypeError
      end
  | _ => Raise AttributeError
  end.

(** The loop of the comprehension [[track.copy() for track in ...]]. *)
Fixpoint copy_tracks (tracks : list value) : prog (list value) :=
  match tracks with
  | [] => ret []
  | track :: rest =>
      (let! dupe := copy_track track in
       let! dupes := copy_tracks rest in
       ret (VRef dupe :: dupes))%prog
  end.

(** The comprehension: it iterates over the list object and makes a new
    one. *)
Definition copy_all (tracks : value) : prog value := fun h =>
  match tracks with
  | VRef l =>
      match h !! l with
      | Some (PyList elems) =>
          (let! dupes := copy_tracks elems in
           let! fresh_list := alloc (PyList dupes) in
           ret (VRef fresh_list))%prog h
      | _ => Raise TypeError
      end
  | _ => Raise TypeError
  end.

Definition copy (self : loc) : prog loc :=
  (let! empty := alloc (PyList []) in
   let! dupe := init (VRef empty) in
   let! _ := update dupe self in
   let! tracks := __getattr__ self "tracks" in
   let! dupes := copy_all tracks in
   let! _ := __setattr__ dupe "tracks" dupes in
   ret dupe)%prog.

End AlbumInfo.

(** [t] is a [TrackInfo] of the heap. *)
Definition is_track (h : heap) (t : loc) : Prop :=
  exists fields, h !! t = Some (AttrDict TrackInfoClass fields).

(** [album] is an [AlbumInfo] of the heap whose attribute [tracks] is
    the list object [l], which holds the objects [ts]. *)
Definition album_tracks (h : heap) (album l : loc) (ts : list loc) : Prop :=
  exists items,
    h !! album = Some (AttrDict AlbumInfoClass items)
    /\ dict_get items "tracks" = Some (VRef l)
    /\ h !! l = Some (PyList (map VRef ts)).

(** The object [t'] is a copy of the track [t]: a [TrackInfo] that holds
    the attributes of [t], with their values. *)
Definition track_copy_of (h h' : heap) (t t' : loc) : Prop :=
  exists fields fields',
    h !! t = Some (AttrDict TrackInfoClass fields)
    /\ h' !! t' = Some (AttrDict TrackInfoClass fields')
    /\ (wf_dict fields ->
        forall key v, dict_get fields key = Some v ->
                      dict_get fields' key = Some v).

(** A heap with one album (object 1) whose list of tracks (object 2)
    holds two tracks (objects 3 and 4), the second with an extra
    attribute. *)
Definition sample_heap : heap :=
  list_to_map
    [(1%positive,
      AttrDict AlbumInfoClass
        (dict_set (AlbumInfo.init_items (VRef 2%positive)) "album"
           (VStr "Help!")));
     (2%positive, PyList [VRef 3%positive; VRef 4%positive]);
     (3%positive,
      AttrDict TrackInfoClass
        (dict_set TrackInfo.init_items "title" (VStr "Help!")));
     (4%positive,
      AttrDict TrackInfoClass
        (dict_set
           (dict_set TrackInfo.init_items "title" (VStr "The Night Before"))
           "discogs_position" (VStr "A2")))].

(** * Properties *)

(** ** String distance *)

Section StringDistFacts.

Context {text : TextOps}.

Lemma levenshtein_list_same (s : list ascii) : levenshtein_list s s = 0%nat.
Proof.
  induction s as [|a s IH]; [reflexivity|].
  cbn [levenshtein_list]. rewrite Ascii.eqb_refl, IH. lia.
Qed.

Lemma levenshtein_list_le_max (s t : list ascii) :
  (levenshtein_list s t <= Nat.max (length s) (length t))%nat.
Proof.
  revert t. induction s as [|a s IH]; intros t.
  - destruct t; cbn; lia.
  - destruct t as [|b t]; [cbn; lia|].
    cbn [levenshtein_list length]. specialize (IH t).
    destruct (Ascii.eqb a b); lia.
Qed.

Lemma length_list_ascii_of_string (s : string) :
  length (list_ascii_of_string s) = String.length s.
Proof. induction s; cbn; congruence. Qed.

Lemma levenshtein_distance_same (s : string) : levenshtein_distance s s = 0%nat.
Proof. apply levenshtein_list_same. Qed.

Lemma levenshtein_distance_le_max (s t : string) :
  (levenshtein_distance s t <= Nat.max (String.length s) (String.length t))%nat.
Proof.
  unfold levenshtein_distance.
  rewrite <- !length_list_ascii_of_string. apply levenshtein_list_le_max.
Qed.

Lemma Qdiv_nat_range (n m : nat) :
  (n <= m)%nat -> (0 < m)%nat ->
  0 <= inject_Z (Z.of_nat n) / inject_Z (Z.of_nat m) <= 1.
Proof.
  intros Hnm Hm.
  assert (Hm' : 0 < inject_Z (Z.of_nat m)).
  { change 0 with (inject_Z 0). rewrite <- Zlt_Qlt. lia. }
  assert (Hn : 0 <= inject_Z (Z.of_nat n)).
  { change 0 with (inject_Z 0). rewrite <- Zle_Qle. lia. }
  assert (Hle : inject_Z (Z.of_nat n) <= inject_Z (Z.of_nat m)).
  { rewrite <- Zle_Qle. lia. }
  split.
  - apply Qle_shift_div_l; [exact Hm'|]. lra.
  - apply Qle_shift_div_r; [exact Hm'|]. lra.
Qed.

Lemma string_eqb_empty_length (s : string) :
  String.eqb s "" = false -> (0 < String.length s)%nat.
Proof. destruct s; cbn; [discriminate|lia]. Qed.

Lemma _string_dist_basic_range (str1 str2 : string) :
  0 <= _string_dist_basic str1 str2 <= 1.
Proof.
  unfold _string_dist_basic.
  set (n1 := re_sub _ _ (str_lower (as_string (unidecode str1)))).
  set (n2 := re_sub _ _ (str_lower (as_string (unidecode str2)))).
  destruct (String.eqb n1 "") eqn:E1, (String.eqb n2 "") eqn:E2; cbn [andb];
    try lra;
    (apply Qdiv_nat_range; [apply levenshtein_distance_le_max|]).
  - apply string_eqb_empty_length in E2. lia.
  - apply string_eqb_empty_length in E1. lia.
  - apply string_eqb_empty_length in E1. lia.
Qed.

Lemma _string_dist_basic_same (str : string) : _string_dist_basic str str == 0.
Proof.
  unfold _string_dist_basic.
  set (n := re_sub _ _ (str_lower (as_string (unidecode str)))).
  destruct (String.eqb n "" && String.eqb n ""); [reflexivity|].
  rewrite levenshtein_distance_same. unfold Qdiv. apply Qmult_0_l.
Qed.

Lemma pymax_0_cases (x : Q) :
  (x <= 0 /\ pymax 0 x = 0) \/ (0 < x /\ pymax 0 x = x).
Proof.
  unfold pymax, Qltb. destruct (Qle_bool x 0) eqn:E; cbn [negb].
  - left. split; [now apply Qle_bool_iff|reflexivity].
  - right. split; [|reflexivity].
    destruct (Qlt_le_dec 0 x) as [Hlt|Hle]; [exact Hlt|].
    apply Qle_bool_iff in Hle. congruence.
Qed.

Lemma pattern_step_cases (st : sd_state) (pat : string) (weight : Q) :
  pattern_step st (pat, weight) = st \/
  exists case_str1 case_str2,
    let case_dist := _string_dist_basic case_str1 case_str2 in
    case_dist < base_dist st /\
    pattern_step st (pat, weight) =
      mk_sd case_str1 case_str2 case_dist
        (penalty st + weight * (base_dist st - case_dist)).
Proof.
  unfold pattern_step.
  destruct (negb _ || negb _); [|now left].
  destruct (pymax_0_cases
              (base_dist st - _string_dist_basic (re_sub pat "" (sd_str1 st))
                                (re_sub pat "" (sd_str2 st))))
    as [[Hle ->]|[Hlt ->]].
  - now left.
  - destruct (Qeq_bool _ 0); [now left|]. right.
    eexists _, _. cbn zeta. split; [|reflexivity]. lra.
Qed.

Lemma SD_PATTERNS_weights :
  Forall (fun pw : string * Q => 0 <= snd pw <= 1) SD_PATTERNS.
Proof. repeat constructor; cbn; lra. Qed.

Lemma pattern_step_score (st : sd_state) (pw : string * Q) :
  0 <= snd pw <= 1 ->
  sd_score (pattern_step st pw) <= sd_score st.
Proof.
  destruct pw as [pat weight]. cbn [snd]. intros Hw.
  destruct (pattern_step_cases st pat weight) as [->|(c1 & c2 & Hlt & ->)];
    [lra|].
  unfold sd_score. cbn [base_dist penalty]. cbn zeta in Hlt. nra.
Qed.

Lemma pattern_step_inv (bound : Q) (st : sd_state) (pw : string * Q) :
  0 <= snd pw <= 1 -> sd_inv bound st -> sd_inv bound (pattern_step st pw).
Proof.
  intros Hw (Hb & Hp & Hs).
  pose proof (pattern_step_score st pw Hw) as Hstep.
  destruct pw as [pat weight]. cbn [snd] in Hw.
  destruct (pattern_step_cases st pat weight) as [->|(c1 & c2 & Hlt & E)].
  - now repeat split.
  - rewrite E in *. cbn zeta in Hlt. unfold sd_inv, sd_score in *.
    cbn [base_dist penalty] in *.
    pose proof (_string_dist_basic_range c1 c2) as [H0 _].
    repeat split; [exact H0|nra|lra].
Qed.

Lemma patterns_loop_inv (bound : Q) (pats : list (string * Q)) (st : sd_state) :
  Forall (fun pw : string * Q => 0 <= snd pw <= 1) pats ->
  sd_inv bound st -> sd_inv bound (fold_left pattern_step pats st).
Proof.
  intros Hpats. revert st.
  induction Hpats as [|pw pats Hw _ IH]; intros st Hst; cbn [fold_left];
    [exact Hst|].
  apply IH. now apply pattern_step_inv.
Qed.

Lemma sd_normalize_same (str : string) :
  fst (sd_normalize str str) = snd (sd_normalize str str).
Proof.
  unfold sd_normalize.
  assert (Hend : forall ws strs, fst strs = snd strs ->
            fst (fold_left end_words_step ws strs)
            = snd (fold_left end_words_step ws strs)).
  { induction ws as [|w ws IH]; intros strs E; cbn [fold_left]; [exact E|].
    apply IH. unfold end_words_step. cbn [fst snd]. now rewrite E. }
  assert (Hrep : forall ps strs, fst strs = snd strs ->
            fst (fold_left replace_step ps strs)
            = snd (fold_left replace_step ps strs)).
  { induction ps as [|pr ps IH]; intros strs E; cbn [fold_left]; [exact E|].
    apply IH. unfold replace_step. cbn [fst snd]. now rewrite E. }
  apply Hrep, Hend. reflexivity.
Qed.

Lemma pattern_step_same (st : sd_state) (pw : string * Q) :
  base_dist st == 0 -> pattern_step st pw = st.
Proof.
  intros Hbase. destruct pw as [pat weight].
  destruct (pattern_step_cases st pat weight) as [E|(c1 & c2 & Hlt & _)];
    [exact E|].
  cbn zeta in Hlt. pose proof (_string_dist_basic_range c1 c2). lra.
Qed.

Lemma patterns_loop_same (pats : list (string * Q)) (st : sd_state) :
  base_dist st == 0 -> fold_left pattern_step pats st = st.
Proof.
  intros Hbase. induction pats as [|pw pats IH]; cbn [fold_left];
    [reflexivity|].
  rewrite pattern_step_same by assumption. exact IH.
Qed.

(** C3: a string is at distance 0.0 from itself, two absent strings are
    at distance 0.0, and an absent string is at distance 1.0 from every
    present one, on either side. *)
Theorem string_dist_same_and_absent (s : string) :
  string_dist (Some s) (Some s) == 0 /\
  string_dist None None == 0 /\
  string_dist None (Some s) == 1 /\
  string_dist (Some s) None == 1.
Proof.
  repeat split; try reflexivity.
  unfold string_dist.
  assert (Hbase : base_dist (sd_initial (sd_normalize s s)) == 0).
  { unfold sd_initial. cbn [base_dist]. rewrite <- sd_normalize_same.
    apply _string_dist_basic_same. }
  rewrite patterns_loop_same by exact Hbase.
  rewrite Hbase. unfold sd_initial. cbn [penalty]. lra.
Qed.


End StringDistFacts.

(** *** The string distance on plain ASCII *)

Section PlainTextExamples.

#[local] Existing Instance PlainText.text.

(** Moving the article to the end is neutral. *)
Example string_dist_article :
  string_dist (Some "The Beatles") (Some "Beatles, The") == 0.
Proof. vm_compute. reflexivity. Qed.

(** The remark in parentheses costs 0.3 of what it costs as plain
    text: the basic distance is 1/2, the result 0.3 * 1/2. *)
Example string_dist_parens :
  _string_dist_basic "song (live)" "song" == 1 # 2
  /\ string_dist (Some "Song (Live)") (Some "Song") == 3 # 20.
Proof. split; vm_compute; reflexivity. Qed.

(** A marker [ep] is dropped at no cost, a [feat.] credit at 0.1. *)
Example string_dist_markers :
  string_dist (Some "Foo EP") (Some "Foo") == 0
  /\ string_dist (Some "Brian Eno feat. X") (Some "Brian Eno") == 1 # 26.
Proof. split; vm_compute; reflexivity. Qed.

(** The bound on the result is the basic distance of the normalized
    strings that enter the loop: [SD_REPLACE] can take the result above
    the basic distance of the strings as they were given. *)
Example string_dist_ampersand :
  _string_dist_basic "a & b" "a b" == 0
  /\ sd_normalize "a & b" "a b" = ("a and b", "a b")
  /\ string_dist (Some "a & b") (Some "a b") == 3 # 5.
Proof. repeat split; vm_compute; reflexivity. Qed.

End PlainTextExamples.

(** ** Sorting *)

Section SortedFacts.

Context {A : Type} (lt : A -> A -> bool) (le : A -> A -> Prop).

Hypothesis lt_false_le : forall a b, lt b a = false -> le a b.
Hypothesis lt_true_le : forall a b, lt a b = true -> le a b.
Hypothesis le_trans : forall a b c, le a b -> le b c -> le a c.

Lemma insert_sorted_perm (x : A) (l : list A) :
  Permutation (insert_sorted lt x l) (x :: l).
Proof.
  induction l as [|y l IH]; cbn [insert_sorted]; [reflexivity|].
  destruct (lt y x); [|reflexivity].
  rewrite IH. apply perm_swap.
Qed.

Lemma insert_sorted_sorted (x : A) (l : list A) :
  StronglySorted le l -> StronglySorted le (insert_sorted lt x l).
Proof.
  induction 1 as [|y l Hs IH Hy]; cbn [insert_sorted].
  - repeat constructor.
  - destruct (lt y x) eqn:E.
    + constructor; [exact IH|].
      apply (Permutation_Forall (Permutation_sym (insert_sorted_perm x l))).
      constructor; [now apply lt_true_le|exact Hy].
    + assert (Hxy : le x y) by now apply lt_false_le.
      constructor; [now constructor|].
      constructor; [exact Hxy|].
      eapply List.Forall_impl; [|exact Hy]. intros z Hz. cbn beta in Hz.
      now apply (le_trans x y z).
Qed.

Lemma fold_insert_sorted_perm (l : list A) :
  Permutation (fold_right (insert_sorted lt) [] l) l.
Proof.
  induction l as [|x l IH]; cbn [fold_right]; [reflexivity|].
  rewrite insert_sorted_perm. now constructor.
Qed.

Lemma fold_insert_sorted_sorted (l : list A) :
  StronglySorted le (fold_right (insert_sorted lt) [] l).
Proof.
  induction l as [|x l IH]; cbn [fold_right]; [constructor|].
  now apply insert_sorted_sorted.
Qed.

End SortedFacts.

(** ** The order of strings and of [(float, str)] tuples *)

Lemma ascii_compare_trans (a b c : ascii) :
  Ascii.compare a b = Lt -> Ascii.compare b c = Lt -> Ascii.compare a c = Lt.
Proof.
  unfold Ascii.compare. rewrite !N.compare_lt_iff. lia.
Qed.

Lemma string_compare_trans (a b c : string) :
  String.compare a b = Lt -> String.compare b c = Lt ->
  String.compare a c = Lt.
Proof.
  revert b c. induction a as [|x a IH]; intros [|y b] [|z c]; cbn;
    try congruence.
  destruct (Ascii.compare x y) eqn:Exy; try discriminate.
  - apply Ascii.compare_eq_iff in Exy. subst y.
    destruct (Ascii.compare x z); try congruence. apply IH.
  - destruct (Ascii.compare y z) eqn:Eyz; try discriminate.
    + apply Ascii.compare_eq_iff in Eyz. subst z. now rewrite Exy.
    + now rewrite (ascii_compare_trans x y z Exy Eyz).
Qed.

Lemma string_not_gt_trans (a b c : string) :
  String.compare a b <> Gt -> String.compare b c <> Gt ->
  String.compare a c <> Gt.
Proof.
  intros Hab Hbc Hac.
  assert (Hca : String.compare c a = Lt).
  { rewrite String.compare_antisym, Hac. reflexivity. }
  destruct (String.compare a b) eqn:Eab; [| |congruence].
  - apply String.compare_eq_iff in Eab. subst b. congruence.
  - pose proof (string_compare_trans c a b Hca Eab) as Hcb.
    rewrite String.compare_antisym, Hcb in Hbc. now apply Hbc.
Qed.

Lemma Qltb_true (x y : Q) : Qltb x y = true <-> x < y.
Proof.
  unfold Qltb. rewrite negb_true_iff. split.
  - intros E. destruct (Qlt_le_dec x y) as [H|H]; [exact H|].
    apply Qle_bool_iff in H. congruence.
  - intros H. destruct (Qle_bool y x) eqn:E; [|reflexivity].
    apply Qle_bool_iff in E. lra.
Qed.

Lemma Qltb_false (x y : Q) : Qltb x y = false <-> y <= x.
Proof.
  unfold Qltb. rewrite negb_false_iff. apply Qle_bool_iff.
Qed.

Lemma tuple_lt_false_le (a b : Q * string) :
  tuple_lt b a = false -> tuple_le a b.
Proof.
  unfold tuple_lt, tuple_le, String.ltb.
  destruct (Qeq_bool (fst b) (fst a)) eqn:E.
  - apply Qeq_bool_iff in E. intros H. right. split; [lra|].
    rewrite String.compare_antisym.
    destruct (String.compare (snd b) (snd a)); cbn; congruence.
  - intros H. apply Qltb_false in H. left.
    destruct (Qeq_dec (fst b) (fst a)) as [Heq|Hne].
    + apply Qeq_bool_iff in Heq. congruence.
    + lra.
Qed.

Lemma tuple_lt_true_le (a b : Q * string) :
  tuple_lt a b = true -> tuple_le a b.
Proof.
  unfold tuple_lt, tuple_le, String.ltb.
  destruct (Qeq_bool (fst a) (fst b)) eqn:E.
  - apply Qeq_bool_iff in E. intros H. right. split; [exact E|].
    destruct (String.compare (snd a) (snd b)); congruence.
  - intros H. apply Qltb_true in H. now left.
Qed.

Lemma tuple_le_trans (a b c : Q * string) :
  tuple_le a b -> tuple_le b c -> tuple_le a c.
Proof.
  unfold tuple_le. intros [Hab|[Hab Sab]] [Hbc|[Hbc Sbc]].
  - left. lra.
  - left. lra.
  - left. lra.
  - right. split; [lra|]. now apply (string_not_gt_trans _ (snd b)).
Qed.

Lemma tuple_le_items_order (a b : string * Q) :
  tuple_le (items_key a) (items_key b) -> items_order a b.
Proof.
  unfold tuple_le, items_order, items_key, String.leb. cbn [fst snd].
  intros [H|[H S]].
  - left. lra.
  - right. split; [lra|].
    destruct (String.compare (fst a) (fst b)); congruence.
Qed.

Lemma StronglySorted_weaken {A} (R R' : A -> A -> Prop) (l : list A) :
  (forall a b, R a b -> R' a b) -> StronglySorted R l -> StronglySorted R' l.
Proof.
  intros HR. induction 1 as [|x l Hs IH Hx]; constructor; [exact IH|].
  eapply List.Forall_impl; [|exact Hx]. intros b. apply HR.
Qed.

Lemma sorted_items_perm (l : list (string * Q)) :
  Permutation (sorted items_key tuple_lt l) l.
Proof. apply fold_insert_sorted_perm. Qed.

Lemma sorted_items_sorted (l : list (string * Q)) :
  StronglySorted items_order (sorted items_key tuple_lt l).
Proof.
  apply (StronglySorted_weaken
           (fun a b => tuple_le (items_key a) (items_key b))).
  - intros a b. apply tuple_le_items_order.
  - apply (fold_insert_sorted_sorted
             (fun a b => tuple_lt (items_key a) (items_key b))
             (fun a b => tuple_le (items_key a) (items_key b))).
    + intros a b. apply tuple_lt_false_le.
    + intros a b. apply tuple_lt_true_le.
    + intros a b c. apply tuple_le_trans.
Qed.

(** ** The penalty accumulator *)

Section DistanceFacts.

Import Distance.

Variable W : weights.

Lemma sum_Qsum (l : list Q) : sum l == Qsum l.
Proof.
  unfold sum.
  assert (H : forall acc, fold_left Qplus l acc == acc + Qsum l).
  { unfold Qsum.
    induction l as [|x l IH]; intros acc; cbn [fold_left fold_right].
    - lra.
    - rewrite IH. lra. }
  rewrite H. lra.
Qed.

Lemma truthy_false (x : Q) : truthy x = false <-> x == 0.
Proof.
  unfold truthy. rewrite negb_false_iff. apply Qeq_bool_iff.
Qed.

Lemma truthy_true (x : Q) : truthy x = true <-> ~ x == 0.
Proof.
  rewrite <- truthy_false. destruct (truthy x); split; congruence.
Qed.

Lemma weight_configured (key : string) :
  is_Some (W !! key) -> weight W key = Ok (weight_of W key).
Proof. intros [w E]. unfold weight, weight_of. now rewrite E. Qed.

Lemma max_distance_loop_spec (items : dict (list Q)) (acc : Q) :
  Forall (fun key => is_Some (W !! key)) (dict_keys items) ->
  exists m, max_distance_loop W items acc = Ok m
            /\ m == acc + weighted_count W items.
Proof.
  revert acc. induction items as [|[key penalty] items IH]; intros acc Hc.
  - exists acc. split; [reflexivity|]. unfold weighted_count. cbn. lra.
  - inversion Hc as [|? ? Hk Hrest]; subst.
    cbn [max_distance_loop]. rewrite (weight_configured key Hk). cbn [rbind].
    destruct (IH (acc + len penalty * weight_of W key) Hrest) as (m & E & Hm).
    exists m. split; [exact E|].
    unfold weighted_count, Qsum in *. cbn [map fold_right fst snd] in *.
    lra.
Qed.

Lemma raw_distance_loop_spec (items : dict (list Q)) (acc : Q) :
  Forall (fun key => is_Some (W !! key)) (dict_keys items) ->
  exists r, raw_distance_loop W items acc = Ok r
            /\ r == acc + weighted_sum W items.
Proof.
  revert acc. induction items as [|[key penalty] items IH]; intros acc Hc.
  - exists acc. split; [reflexivity|]. unfold weighted_sum. cbn. lra.
  - inversion Hc as [|? ? Hk Hrest]; subst.
    cbn [raw_distance_loop]. rewrite (weight_configured key Hk). cbn [rbind].
    destruct (IH (acc + sum penalty * weight_of W key) Hrest) as (r & E & Hr).
    exists r. split; [exact E|].
    rewrite Hr, sum_Qsum.
    unfold weighted_sum, Qsum. cbn [map fold_right fst snd]. lra.
Qed.

Lemma max_distance_spec (self : t) :
  configured W self ->
  exists m, max_distance W self = Ok m /\ m == weighted_count W (_penalties self).
Proof.
  intros Hc. destruct (max_distance_loop_spec (_penalties self) 0 Hc)
    as (m & E & Hm).
  exists m. split; [exact E|]. lra.
Qed.

Lemma raw_distance_spec (self : t) :
  configured W self ->
  exists r, raw_distance W self = Ok r /\ r == weighted_sum W (_penalties self).
Proof.
  intros Hc. destruct (raw_distance_loop_spec (_penalties self) 0 Hc)
    as (r & E & Hr).
  exists r. split; [exact E|]. lra.
Qed.

Lemma distance_returns (self : t) :
  configured W self -> exists x, distance W self = Ok x.
Proof.
  intros Hc.
  destruct (max_distance_spec self Hc) as (m & Em & _).
  destruct (raw_distance_spec self Hc) as (r & Er & _).
  unfold distance. rewrite Em. cbn [rbind].
  destruct (truthy m); [|now eexists].
  rewrite Er. cbn [rbind]. now eexists.
Qed.

Lemma max_distance_loop_unconfigured (items : dict (list Q)) (acc : Q) :
  ~ Forall (fun key => is_Some (W !! key)) (dict_keys items) ->
  exists key, In key (dict_keys items)
              /\ W !! key = None
              /\ max_distance_loop W items acc = Raise (KeyError key).
Proof.
  revert acc. induction items as [|[k p] items IH]; intros acc Hnot.
  - exfalso. apply Hnot. constructor.
  - cbn [max_distance_loop dict_keys map fst]. unfold weight.
    destruct (W !! k) as [w|] eqn:E.
    + cbn [rbind].
      destruct (IH (acc + len p * w)) as (key & Hin & Hnone & Eraise).
      { intros Hall. apply Hnot. constructor; [now exists w|exact Hall]. }
      exists key. split; [now right|]. split; [exact Hnone|exact Eraise].
    + exists k. split; [now left|]. split; [exact E|reflexivity].
Qed.

(** Without a weight for one of its keys the total is not defined:
    reading [max_distance] raises [KeyError]. *)
Lemma distance_unconfigured (self : t) :
  ~ configured W self ->
  exists key, In key (dict_keys (_penalties self))
              /\ W !! key = None
              /\ distance W self = Raise (KeyError key).
Proof.
  intros Hnot.
  destruct (max_distance_loop_unconfigured (_penalties self) 0 Hnot)
    as (key & Hin & Hnone & Eraise).
  exists key. split; [exact Hin|]. split; [exact Hnone|].
  unfold distance, max_distance. now rewrite Eraise.
Qed.

(** C1: the normalized total [distance] is the weighted sum of the
    penalties divided by the weighted count of the penalties, and 0.0
    when that count is zero; an accumulator without penalties has total
    0.0. *)
Theorem distance_is_weighted_mean (self : t) :
  configured W self ->
  (exists x, distance W self = Ok x
     /\ (weighted_count W (_penalties self) == 0 -> x == 0)
     /\ (~ weighted_count W (_penalties self) == 0 ->
         x == weighted_sum W (_penalties self)
              / weighted_count W (_penalties self)))
  /\ distance W init = Ok 0.
Proof.
  intros Hc. split; [|reflexivity].
  destruct (max_distance_spec self Hc) as (m & Em & Hm).
  destruct (raw_distance_spec self Hc) as (r & Er & Hr).
  unfold distance. rewrite Em. cbn [rbind].
  destruct (truthy m) eqn:Et.
  - rewrite Er. cbn [rbind]. exists (r / m). split; [reflexivity|].
    apply truthy_true in Et. split.
    + intros H0. exfalso. apply Et. lra.
    + intros _. rewrite Hr, Hm. reflexivity.
  - exists 0. split; [reflexivity|]. apply truthy_false in Et. split.
    + reflexivity.
    + intros Hn. exfalso. apply Hn. lra.
Qed.

Lemma dict_get_In {V} (d : dict V) (key : string) (v : V) :
  dict_get d key = Some v -> In (key, v) d.
Proof.
  induction d as [|[k v'] d IH]; cbn [dict_get]; [discriminate|].
  destruct (String.eqb k key) eqn:E.
  - apply String.eqb_eq in E. intros [= ->]. subst. now left.
  - intros H. right. now apply IH.
Qed.

Lemma dict_get_wf {V} (d : dict V) (key : string) (v : V) :
  wf_dict d -> In (key, v) d -> dict_get d key = Some v.
Proof.
  unfold wf_dict, dict_keys.
  induction d as [|[k v'] d IH]; cbn [map fst dict_get]; [now intros _ []|].
  rewrite NoDup_cons. intros [Hk Hd] [[= -> ->]|Hin].
  - now rewrite String.eqb_refl.
  - destruct (String.eqb k key) eqn:E; [|now apply IH].
    apply String.eqb_eq in E. subst k. exfalso. apply Hk.
    apply list_elem_of_In. apply (in_map fst) in Hin. exact Hin.
Qed.

Lemma configured_In (self : t) (key : string) (penalty : list Q) :
  configured W self -> In (key, penalty) (_penalties self) ->
  is_Some (W !! key).
Proof.
  intros Hc Hin. unfold configured in Hc.
  apply (proj1 (List.Forall_forall _ _) Hc).
  apply (in_map fst) in Hin. exact Hin.
Qed.

Lemma getitem_spec (self : t) (key : string) (penalty : list Q) (m : Q) :
  configured W self ->
  max_distance W self = Ok m ->
  dict_get (_penalties self) key = Some penalty ->
  __getitem__ W self key
  = Ok (if truthy m then sum penalty * weight_of W key / m else 0).
Proof.
  intros Hc Em Hget. unfold __getitem__. rewrite Hget.
  rewrite (weight_configured key
             (configured_In self key penalty Hc (dict_get_In _ _ _ Hget))).
  cbn [rbind]. rewrite Em. cbn [rbind]. now destruct (truthy m).
Qed.

Lemma per_key_sum_spec (self : t) (m : Q) (items : dict (list Q)) :
  configured W self ->
  max_distance W self = Ok m ->
  (forall key penalty, In (key, penalty) items ->
     dict_get (_penalties self) key = Some penalty) ->
  exists s, per_key_sum W self (dict_keys items) = Ok s
            /\ s == (if truthy m then weighted_sum W items / m else 0).
Proof.
  intros Hc Em. induction items as [|[key penalty] items IH]; intros Hget.
  - exists 0. split; [reflexivity|]. destruct (truthy m); [|reflexivity].
    unfold weighted_sum, Qsum, Qdiv. cbn. lra.
  - destruct IH as (s & Es & Hs).
    { intros k p Hin. apply Hget. now right. }
    cbn [dict_keys map fst per_key_sum]. fold (dict_keys items).
    rewrite (getitem_spec self key penalty m Hc Em (Hget _ _ (or_introl eq_refl))).
    cbn [rbind]. rewrite Es. cbn [rbind]. eexists. split; [reflexivity|].
    rewrite Hs. destruct (truthy m) eqn:Et; [|lra].
    apply truthy_true in Et. rewrite sum_Qsum.
    unfold weighted_sum, Qsum. cbn [map fold_right fst snd].
    field. exact Et.
Qed.


Lemma dict_get_key {V} (d : dict V) (key : string) :
  In key (dict_keys d) -> exists v, dict_get d key = Some v.
Proof.
  induction d as [|[k v] d IH]; cbn [dict_keys map fst dict_get]; [now intros []|].
  destruct (String.eqb k key) eqn:E; [now exists v|].
  intros [->|Hin]; [now rewrite String.eqb_refl in E|]. now apply IH.
Qed.

Lemma items_loop_spec (self : t) (m : Q) (keys : list string)
      (list_ : list (string * Q)) :
  configured W self ->
  max_distance W self = Ok m ->
  (forall key, In key keys -> In key (dict_keys (_penalties self))) ->
  exists l, items_loop W self keys list_ = Ok (list_ ++ l)
    /\ (forall key v, In (key, v) l <->
          In key keys /\ __getitem__ W self key = Ok v /\ ~ v == 0)
    /\ (NoDup keys -> NoDup (map fst l)).
Proof.
  intros Hc Em. revert list_.
  induction keys as [|key keys IH]; intros list_ Hkeys.
  - exists []. cbn [items_loop]. rewrite app_nil_r.
    split; [reflexivity|]. split; [|constructor].
    intros k v. split; [intros []|intros ([] & _)].
  - destruct (dict_get_key (_penalties self) key (Hkeys key (or_introl eq_refl)))
      as (penalty & Hget).
    pose proof (getitem_spec self key penalty m Hc Em Hget) as Eget.
    set (x := if truthy m then sum penalty * weight_of W key / m else 0) in *.
    assert (Hrest : forall k, In k keys -> In k (dict_keys (_penalties self))).
    { intros k Hin. apply Hkeys. now right. }
    cbn [items_loop]. rewrite Eget. cbn [rbind].
    destruct (truthy x) eqn:Et.
    + destruct (IH (list_ ++ [(key, x)]) Hrest) as (l & El & Hl & Hnd).
      exists ((key, x) :: l). split; [|split].
      * rewrite El, <- app_assoc. reflexivity.
      * intros k v. cbn [In]. rewrite Hl. apply truthy_true in Et. split.
        -- intros [[= <- <-]|(Hin & Hv)]; [now auto|]. split; [now right|exact Hv].
        -- intros ([<-|Hin] & Hv & Hnz).
           ++ left. rewrite Eget in Hv. congruence.
           ++ right. auto.
      * rewrite !NoDup_cons. intros [Hk Hks]. cbn [map fst].
        apply NoDup_cons. split; [|now apply Hnd].
        intros Hin. apply Hk. apply list_elem_of_In in Hin.
        apply list_elem_of_In.
        apply in_map_iff in Hin as ([k v] & Ek & Hin). cbn [fst] in Ek. subst k.
        now apply Hl in Hin.
    + destruct (IH list_ Hrest) as (l & El & Hl & Hnd).
      exists l. split; [exact El|]. split.
      * intros k v. rewrite Hl. apply truthy_false in Et. split.
        -- intros (Hin & Hv). split; [now right|exact Hv].
        -- intros ([<-|Hin] & Hv & Hnz); [|now auto].
           rewrite Eget in Hv. injection Hv as <-. contradiction.
      * rewrite NoDup_cons. intros [_ Hks]. now apply Hnd.
Qed.

(** C7: [items] holds exactly the keys whose weighted value [self[key]]
    is not zero, each once and with that value, in descending order of
    the value, equal values in ascending order of the key. *)
Theorem items_nonzero_sorted (self : t) :
  wf_dict (_penalties self) ->
  configured W self ->
  exists l, items W self = Ok l
    /\ (forall key v, In (key, v) l <->
          In key (dict_keys (_penalties self))
          /\ __getitem__ W self key = Ok v /\ ~ v == 0)
    /\ NoDup (map fst l)
    /\ StronglySorted items_order l.
Proof.
  intros Hwf Hc.
  destruct (max_distance_spec self Hc) as (m & Em & _).
  destruct (items_loop_spec self m (dict_keys (_penalties self)) [] Hc Em)
    as (l & El & Hl & Hnd); [auto|].
  unfold items. rewrite El. cbn [rbind app].
  eexists. split; [reflexivity|].
  pose proof (sorted_items_perm l) as Hperm.
  split; [|split].
  - intros key v. rewrite <- Hl. split; apply Permutation_in.
    + exact Hperm.
    + now apply Permutation_sym.
  - assert (Hp : Permutation (map fst (sorted items_key tuple_lt l))
                             (map fst l))
      by now apply Permutation_map.
    rewrite Hp. now apply Hnd.
  - apply sorted_items_sorted.
Qed.

End DistanceFacts.

Section MutationFacts.

Import Distance.

Lemma in_range_bool (dist : Q) :
  Qle_bool 0 dist && Qle_bool dist 1 = true <-> 0 <= dist <= 1.
Proof. rewrite andb_true_iff, !Qle_bool_iff. reflexivity. Qed.

Lemma add_in_range (key : string) (dist : Q) (self : t) :
  0 <= dist <= 1 ->
  add key dist self
  = (Ok tt, mk (setdefault_extend (_penalties self) key [dist])).
Proof.
  intros H. apply in_range_bool in H. unfold add. now rewrite H.
Qed.

Lemma add_out_of_range (key : string) (dist : Q) (self : t) :
  ~ (0 <= dist <= 1) -> add key dist self = (Raise ValueError, self).
Proof.
  intros H. unfold add.
  destruct (Qle_bool 0 dist && Qle_bool dist 1) eqn:E; [|reflexivity].
  apply in_range_bool in E. contradiction.
Qed.

Lemma in_range_dec (dist : Q) : {0 <= dist <= 1} + {~ (0 <= dist <= 1)}.
Proof.
  destruct (Qle_bool 0 dist && Qle_bool dist 1) eqn:E.
  - left. now apply in_range_bool.
  - right. intros H. apply in_range_bool in H. congruence.
Qed.

(** C5: [add] raises [ValueError] exactly when the value is outside
    [0, 1] and then leaves the penalties as they were; [update] raises
    [ValueError] for an argument that is not an accumulator, and leaves
    the penalties as they were; the error of either ends the method
    that made the call, nothing after it runs or catches it, and the
    loop of [add_number] stops at it. *)
Theorem add_update_errors (self : t) (key : string) (dist : Q) :
  (fst (add key dist self) = Raise ValueError <-> ~ (0 <= dist <= 1))
  /\ (forall e, fst (add key dist self) = Raise e ->
        e = ValueError /\ snd (add key dist self) = self)
  /\ (forall other, (forall id d, other <> PDistance id d) ->
        update other self = (Raise ValueError, self))
  /\ (forall (B : Type) (rest : unit -> method B),
        ~ (0 <= dist <= 1) ->
        mseq (add key dist) rest self = (Raise ValueError, self))
  /\ (forall (B : Type) (rest : unit -> method B) other,
        (forall id d, other <> PDistance id d) ->
        mseq (update other) rest self = (Raise ValueError, self))
  /\ (forall n, ~ (0 <= dist <= 1) ->
        add_times (S n) key dist self = (Raise ValueError, self)).
Proof.
  assert (Hupd : forall other, (forall id d, other <> PDistance id d) ->
                   update other self = (Raise ValueError, self)).
  { intros other Hother. destruct other; try reflexivity.
    now destruct (Hother id d). }
  split; [|split; [|split; [|split; [|split]]]].
  - split.
    + intros E H. rewrite (add_in_range key dist self H) in E. discriminate.
    + intros H. now rewrite add_out_of_range.
  - intros e E. destruct (in_range_dec dist) as [H|H].
    + rewrite (add_in_range key dist self H) in E. discriminate.
    + rewrite (add_out_of_range key dist self H) in *. cbn in *.
      split; congruence.
  - exact Hupd.
  - intros B rest H. unfold mseq. now rewrite add_out_of_range.
  - intros B rest other H. unfold mseq. now rewrite Hupd.
  - intros n H. cbn [add_times]. unfold mseq. now rewrite add_out_of_range.
Qed.

Lemma setdefault_extend_twice (d : dict (list Q)) (key : string)
      (a b : list Q) :
  setdefault_extend (setdefault_extend d key a) key b
  = setdefault_extend d key (a ++ b).
Proof.
  induction d as [|[k l] d IH]; cbn [setdefault_extend].
  - now rewrite String.eqb_refl.
  - destruct (String.eqb k key) eqn:E; cbn [setdefault_extend]; rewrite E.
    + now rewrite <- app_assoc.
    + now rewrite IH.
Qed.

Lemma dict_get_setdefault_extend (d : dict (list Q)) (key : string)
      (vals : list Q) :
  dict_get (setdefault_extend d key vals) key
  = Some (default [] (dict_get d key) ++ vals).
Proof.
  induction d as [|[k l] d IH]; cbn [setdefault_extend dict_get].
  - now rewrite String.eqb_refl.
  - destruct (String.eqb k key) eqn:E; cbn [dict_get]; now rewrite E.
Qed.

Lemma dict_get_setdefault_extend_other (d : dict (list Q)) (key key' : string)
      (vals : list Q) :
  key' <> key ->
  dict_get (setdefault_extend d key vals) key' = dict_get d key'.
Proof.
  intros Hne. induction d as [|[k l] d IH]; cbn [setdefault_extend dict_get].
  - destruct (String.eqb key key') eqn:E; [|reflexivity].
    apply String.eqb_eq in E. congruence.
  - destruct (String.eqb k key) eqn:E; cbn [dict_get].
    + apply String.eqb_eq in E. subst k.
      destruct (String.eqb key key') eqn:E'; [|reflexivity].
      apply String.eqb_eq in E'. congruence.
    + now rewrite IH.
Qed.

(** The keys of the dictionary stay pairwise different under every
    method: the accumulators that the code can build satisfy the
    hypothesis [wf_dict] of the properties above. *)
Lemma setdefault_extend_keys (d : dict (list Q)) (key : string)
      (vals : list Q) :
  dict_keys (setdefault_extend d key vals) = dict_keys d
  \/ (~ In key (dict_keys d)
      /\ dict_keys (setdefault_extend d key vals) = dict_keys d ++ [key]).
Proof.
  induction d as [|[k l] d IH]; cbn [setdefault_extend dict_keys map fst].
  - right. split; [intros []|reflexivity].
  - destruct (String.eqb k key) eqn:E; [now left|].
    cbn [map fst]. fold (dict_keys d).
    fold (dict_keys (setdefault_extend d key vals)).
    destruct IH as [->|[Hnot ->]]; [now left|]. right. split; [|reflexivity].
    intros [->|Hin]; [|now apply Hnot].
    now rewrite String.eqb_refl in E.
Qed.

Lemma wf_setdefault_extend (d : dict (list Q)) (key : string) (vals : list Q) :
  wf_dict d -> wf_dict (setdefault_extend d key vals).
Proof.
  unfold wf_dict. intros Hwf.
  destruct (setdefault_extend_keys d key vals) as [->|[Hnot ->]];
    [exact Hwf|].
  apply NoDup_app. split; [exact Hwf|]. split.
  - intros x Hx ->%list_elem_of_singleton. apply Hnot.
    now apply list_elem_of_In.
  - apply NoDup_singleton.
Qed.

Lemma wf_init : wf_dict (_penalties init).
Proof. constructor. Qed.

Lemma wf_add (key : string) (dist : Q) (self : t) :
  wf_dict (_penalties self) -> wf_dict (_penalties (snd (add key dist self))).
Proof.
  intros Hwf. unfold add. destruct (negb _); cbn [snd _penalties];
    [exact Hwf|now apply wf_setdefault_extend].
Qed.

Lemma wf_update (other : pyval) (self : t) :
  wf_dict (_penalties self) ->
  wf_dict (_penalties (snd (update other self))).
Proof.
  intros Hwf. destruct other as [| | |id d]; try exact Hwf.
  cbn [update snd _penalties]. revert Hwf.
  generalize (_penalties self) as ps.
  induction (_penalties d) as [|[k l] items IH]; intros ps Hwf;
    cbn [fold_left fst snd]; [exact Hwf|].
  apply IH. now apply wf_setdefault_extend.
Qed.

Lemma add_times_ones (n : nat) (key : string) (self : t) :
  add_times (S n) key 1 self
  = (Ok tt, mk (setdefault_extend (_penalties self) key (repeat 1 (S n)))).
Proof.
  revert self. induction n as [|n IH]; intros self.
  - reflexivity.
  - change (add_times (S (S n)) key 1 self)
      with (add_times (S n) key 1
              (mk (setdefault_extend (_penalties self) key [1]))).
    rewrite IH. cbn [_penalties]. now rewrite setdefault_extend_twice.
Qed.

Lemma add_number_spec (key : string) (number1 number2 : Z) (self : t) :
  add_number key number1 number2 self
  = (Ok tt,
     mk (setdefault_extend (_penalties self) key
           (number_penalties number1 number2))).
Proof.
  unfold add_number, number_penalties.
  destruct (Z.eqb_spec number1 number2) as [->|Hne].
  - now rewrite Z.sub_diag.
  - destruct (Z.eqb_spec (Z.abs (number1 - number2)) 0) as [E|E]; [lia|].
    cbn [negb].
    destruct (Z.to_nat (Z.abs (number1 - number2))) as [|n] eqn:En; [lia|].
    apply add_times_ones.
Qed.

Lemma Qsum_app (a b : list Q) : Qsum (a ++ b) == Qsum a + Qsum b.
Proof.
  unfold Qsum. induction a as [|x a IH]; cbn [app fold_right]; [lra|].
  rewrite IH. lra.
Qed.

Lemma Qsum_repeat_1 (n : nat) : Qsum (repeat 1 n) == inject_Z (Z.of_nat n).
Proof.
  unfold Qsum. induction n as [|n IH]; [reflexivity|].
  cbn [repeat fold_right]. rewrite IH, Nat2Z.inj_succ, <- Z.add_1_l.
  rewrite inject_Z_plus. reflexivity.
Qed.

Lemma len_app {A} (a b : list A) : len (a ++ b) == len a + len b.
Proof.
  unfold len. rewrite List.length_app, Nat2Z.inj_add, inject_Z_plus.
  reflexivity.
Qed.

Lemma Qsum_bounds (l : list Q) :
  Forall (fun p => 0 <= p <= 1) l -> 0 <= Qsum l <= len l.
Proof.
  induction 1 as [|x l Hx _ IH]; unfold Qsum, len in *;
    cbn [fold_right length Z.of_nat].
  - split; apply Qle_refl.
  - rewrite Nat2Z.inj_succ, <- Z.add_1_l, inject_Z_plus.
    change (inject_Z 1) with 1. lra.
Qed.

(** The sum and the count of the penalties of [number_penalties], by the
    absolute difference. *)
Lemma number_penalties_sum_len (number1 number2 : Z) :
  let a := inject_Z (Z.abs (number1 - number2)) in
  Qsum (number_penalties number1 number2) == a
  /\ ((a == 0 /\ len (number_penalties number1 number2) == 1)
      \/ (1 <= a /\ len (number_penalties number1 number2) == a)).
Proof.
  cbn zeta. unfold number_penalties.
  destruct (Z.eqb_spec number1 number2) as [->|Hne].
  - rewrite Z.sub_diag. cbn. split; [reflexivity|]. left. split; reflexivity.
  - assert (E : Z.of_nat (Z.to_nat (Z.abs (number1 - number2)))
                = Z.abs (number1 - number2)) by lia.
    split; [now rewrite Qsum_repeat_1, E|]. right. split.
    + change 1 with (inject_Z 1). rewrite <- Zle_Qle. lia.
    + unfold len. now rewrite List.repeat_length, E.
Qed.

Lemma Qdiv_le_cross (a b c d : Q) :
  0 < b -> 0 < d -> a * d <= c * b -> a / b <= c / d.
Proof.
  intros Hb Hd H. apply Qle_shift_div_r; [exact Hb|].
  assert (E : c / d * b == c * b / d) by (field; intro; lra).
  rewrite E. apply Qle_shift_div_l; [exact Hd|exact H].
Qed.

Lemma ratio_monotone (S c A A' B B' : Q) :
  0 <= S <= c ->
  (A == 0 /\ A' == 1) \/ (1 <= A /\ A' == A) ->
  (B == 0 /\ B' == 1) \/ (1 <= B /\ B' == B) ->
  A <= B ->
  (S + A) / (c + A') <= (S + B) / (c + B').
Proof.
  intros HS HA HB HAB.
  apply Qdiv_le_cross;
    [destruct HA as [[? ?]|[? ?]]; lra|destruct HB as [[? ?]|[? ?]]; lra|].
  destruct HA as [[HA HA']|[HA HA']], HB as [[HB HB']|[HB HB']];
    rewrite ?HA, ?HA', ?HB, ?HB'; try nra.
Qed.

Variable W : weights.

Lemma single_key_distance (key : string) (w : Q) (penalty : list Q) :
  W !! key = Some w -> 0 < w -> 0 < len penalty ->
  exists x, distance W (mk [(key, penalty)]) = Ok x
            /\ x == Qsum penalty / len penalty.
Proof.
  intros Hw Hpos Hlen.
  unfold distance, max_distance, raw_distance.
  cbn [_penalties max_distance_loop raw_distance_loop]. unfold weight.
  rewrite Hw. cbn [rbind].
  assert (Hm : ~ 0 + len penalty * w == 0) by nra.
  apply truthy_true in Hm. rewrite Hm. eexists. split; [reflexivity|].
  rewrite sum_Qsum. field. split; intro; lra.
Qed.

Lemma add_number_single_key (key : string) (penalty : list Q) (self : t)
      (number1 number2 : Z) :
  single_key key penalty self ->
  snd (add_number key number1 number2 self)
  = mk [(key, penalty ++ number_penalties number1 number2)].
Proof.
  rewrite add_number_spec. cbn [snd].
  intros [[-> ->] | ->]; cbn [setdefault_extend]; [reflexivity|].
  now rewrite String.eqb_refl.
Qed.


End MutationFacts.

Section ComparisonFacts.

Import Distance.

Variable W : weights.

(** C10 (amended): an accumulator compares with a number by its total:
    [d == x] holds exactly when the total equals [x] and [d < x] exactly
    when the total is below [x]; two accumulators, whatever their
    identities, are equal exactly when their totals are equal. *)
Theorem compare_by_total (self : t) :
  configured W self ->
  exists total, distance W self = Ok total
    /\ (forall x, exists b,
          __eq__ W self (PNum x) = Ok b /\ (b = true <-> total == x))
    /\ (forall x, exists b,
          __lt__ W self (PNum x) = Ok b /\ (b = true <-> total < x))
    /\ (forall id id' other,
          configured W other ->
          exists total' b,
            distance W other = Ok total'
            /\ op_eq W (PDistance id self) (PDistance id' other) = Ok b
            /\ (b = true <-> total == total')).
Proof.
  intros Hc.
  destruct (distance_returns W self Hc) as (total & Et).
  exists total. split; [exact Et|]. split; [|split].
  - intros x. exists (Qeq_bool total x). unfold __eq__. rewrite Et.
    split; [reflexivity|apply Qeq_bool_iff].
  - intros x. exists (Qltb total x). unfold __lt__. rewrite Et.
    split; [reflexivity|apply Qltb_true].
  - intros id id' other Hother.
    destruct (distance_returns W other Hother) as (total' & Et').
    exists total', (Qeq_bool total' total). split; [exact Et'|].
    cbn [op_eq]. unfold __eq__. rewrite Et. cbn [rbind float_eq].
    unfold eq_number. rewrite Et'. split; [reflexivity|].
    rewrite Qeq_bool_iff. split; intros H; now symmetry.
Qed.

End ComparisonFacts.

(** ** The properties at sample accumulators *)

Section Samples.

Import Distance.

Lemma sample_configured : configured sample_weights sample_distance.
Proof. repeat constructor; vm_compute; eauto. Defined.

Lemma sample_wf : wf_dict (_penalties sample_distance).
Proof.
  unfold wf_dict. apply NoDup_ListNoDup. cbn.
  repeat constructor; cbn; intuition discriminate.
Defined.

Example sample_total :
  exists x, distance sample_weights sample_distance = Ok x /\ x == 2 # 5.
Proof. eexists. split; [vm_compute; reflexivity|reflexivity]. Qed.

Example sample_items :
  exists album medium,
    items sample_weights sample_distance
    = Ok [("album", album); ("medium", medium)]
    /\ album == 1 # 5 /\ medium == 1 # 5.
Proof.
  eexists _, _. split; [vm_compute; reflexivity|]. split; reflexivity.
Qed.

Example equal_items :
  exists a b c,
    items equal_weights equal_distance = Ok [("a", a); ("b", b); ("c", c)]
    /\ a == 1 # 6 /\ b == 1 # 6 /\ c == 1 # 6.
Proof.
  eexists _, _, _. split; [vm_compute; reflexivity|]. repeat split.
Qed.

(** [update] appends the penalties of the other accumulator, key by
    key, after those already there. *)
Example update_appends :
  update (PDistance 2 (mk [("year", [1 # 5]); ("album", [1])]))
    (mk [("year", [1 # 2])])
  = (Ok tt, mk [("year", [1 # 2; 1 # 5]); ("album", [1])]).
Proof. reflexivity. Qed.

(** [add_priority]: the first option costs nothing, an option that is
    not listed costs 1.0, the second of three costs 1/3. *)
Example add_priority_media :
  add_priority String.eqb "media" "CD"
    (Several [Literal "CD"; Literal "Vinyl"; Literal "Digital"]) init
  = (Ok tt, mk [("media", [0 * (1 / 3)])])
  /\ add_priority String.eqb "media" "Cassette"
       (Several [Literal "CD"; Literal "Vinyl"]) init
     = (Ok tt, mk [("media", [1])])
  /\ add_priority String.eqb "media" "Vinyl"
       (Several [Literal "CD"; Literal "Vinyl"; Literal "Digital"]) init
     = (Ok tt, mk [("media", [1 * (1 / 3)])]).
Proof. repeat split. Qed.

Lemma distance_is_weighted_mean_witness :
  configured sample_weights sample_distance
  /\ ((exists x, distance sample_weights sample_distance = Ok x
        /\ (weighted_count sample_weights (_penalties sample_distance) == 0
            -> x == 0)
        /\ (~ weighted_count sample_weights (_penalties sample_distance) == 0
            -> x == weighted_sum sample_weights (_penalties sample_distance)
                    / weighted_count sample_weights
                        (_penalties sample_distance)))
      /\ distance sample_weights init = Ok 0).
Proof.
  split; [exact sample_configured|].
  exact (distance_is_weighted_mean sample_weights sample_distance
           sample_configured).
Defined.


Lemma items_nonzero_sorted_witness :
  wf_dict (_penalties sample_distance)
  /\ configured sample_weights sample_distance
  /\ exists l, items sample_weights sample_distance = Ok l
       /\ (forall key v, In (key, v) l <->
             In key (dict_keys (_penalties sample_distance))
             /\ __getitem__ sample_weights sample_distance key = Ok v
             /\ ~ v == 0)
       /\ NoDup (map fst l)
       /\ StronglySorted items_order l.
Proof.
  split; [exact sample_wf|]. split; [exact sample_configured|].
  exact (items_nonzero_sorted sample_weights sample_distance
           sample_wf sample_configured).
Defined.



Lemma compare_by_total_witness :
  configured sample_weights sample_distance
  /\ exists total, distance sample_weights sample_distance = Ok total
       /\ (forall x, exists b,
             __eq__ sample_weights sample_distance (PNum x) = Ok b
             /\ (b = true <-> total == x))
       /\ (forall x, exists b,
             __lt__ sample_weights sample_distance (PNum x) = Ok b
             /\ (b = true <-> total < x))
       /\ (forall id id' other,
             configured sample_weights other ->
             exists total' b,
               distance sample_weights other = Ok total'
               /\ op_eq sample_weights (PDistance id sample_distance)
                    (PDistance id' other) = Ok b
               /\ (b = true <-> total == total')).
Proof.
  split; [exact sample_configured|].
  exact (compare_by_total sample_weights sample_distance sample_configured).
Defined.

(** C10, as stated: two distinct accumulator instances, both fresh,
    compare equal. *)
Lemma distinct_accumulators_equal :
  1%nat <> 2%nat
  /\ op_eq sample_weights (PDistance 1 init) (PDistance 2 init) = Ok true
  /\ __eq__ sample_weights init (PDistance 2 init) = Ok true.
Proof. split; [discriminate|]. split; reflexivity. Qed.

End Samples.

(** ** Aggregation of sources *)

Section AggregationFacts.

Import Aggregation.

Context {info item tags : Type}.

Variable src : sources info item tags.

Lemma yielded_notify (event : string) (r : run info) :
  yielded (notify_info_yielded event r) = yielded r.
Proof.
  unfold yielded, notify_info_yielded. cbn [actions].
  induction (actions r) as [|[e v|v] acts IH]; cbn [flat_map app];
    [reflexivity|exact IH|now rewrite IH].
Qed.

Lemma sent_notify_yields (event : string) (l : list info) (e : option exn) :
  sent (notify_info_yielded event (mk_run (map Yielded l) e))
  = map (pair event) l.
Proof.
  unfold sent, notify_info_yielded. cbn [actions].
  induction l as [|v l IH]; cbn [map flat_map app]; [reflexivity|].
  now rewrite IH.
Qed.

Lemma yielded_yields (l : list info) (e : option exn) :
  yielded (mk_run (map Yielded l) e) = l.
Proof.
  unfold yielded. cbn [actions].
  induction l as [|v l IH]; cbn [map flat_map app]; [reflexivity|].
  now rewrite IH.
Qed.

Lemma yield_from_invoke_mb (call : result (list info)) :
  service_error_only call ->
  yield_from (invoke_mb call) = mk_run (map Yielded (candidates_of call)) None.
Proof. intros [->|[l ->]]; reflexivity. Qed.

Lemma album_candidates_body_isolated (items : list item)
      (artist album : string) (va_likely : bool) (extra_tags : tags)
      (found : list info) :
  plugins_candidates src items artist album va_likely extra_tags = Ok found ->
  (forall a,
      service_error_only (mb_match_album src a album (length items) extra_tags)) ->
  album_candidates_body src items artist album va_likely extra_tags
  = mk_run
      (map Yielded
         ((if musicbrainz_enabled src && nonempty artist && nonempty album
           then candidates_of
                  (mb_match_album src (Some artist) album (length items)
                     extra_tags)
           else [])
          ++ (if musicbrainz_enabled src && va_likely && nonempty album
              then candidates_of
                     (mb_match_album src None album (length items) extra_tags)
              else [])
          ++ found))
      None.
Proof.
  intros Hplug Hmb. unfold album_candidates_body.
  rewrite Hplug, !yield_from_invoke_mb by apply Hmb.
  destruct (musicbrainz_enabled src), (nonempty artist), (nonempty album),
    va_likely; cbn [andb yield_from done andthen raised actions app map];
    rewrite ?map_app, ?app_nil_r, <- ?app_assoc; reflexivity.
Qed.

(** What [albums_for_id] yields when nothing raises: the album of the
    primary source, if it found one, then the albums of the plugins. *)
Lemma albums_for_id_isolated (album_id : string) (found : list (option info)) :
  service_error_only (mb_album_for_id src album_id) ->
  plugins_album_for_id src album_id = Ok found ->
  raised (albums_for_id src album_id) = None
  /\ yielded (albums_for_id src album_id)
     = match mb_album_for_id src album_id with
       | Ok (Some a) => [a]
       | _ => []
       end ++ yielded (mk_run (plugin_albums found) None).
Proof.
  intros Hmb Hplug. unfold albums_for_id, album_for_mbid. rewrite Hplug.
  destruct Hmb as [->|[[a|] ->]]; split; reflexivity.
Qed.


End AggregationFacts.

Section AggregationSamples.

Import Aggregation.



End AggregationSamples.

(** ** Candidate records on the heap *)

Section CandidateFacts.

Lemma dict_get_dict_set {V} (d : dict V) (key : string) (v : V) :
  dict_get (dict_set d key v) key = Some v.
Proof.
  induction d as [|[k x] d IH]; cbn [dict_set dict_get].
  - now rewrite String.eqb_refl.
  - destruct (String.eqb k key) eqn:E; cbn [dict_get]; now rewrite E.
Qed.

Lemma dict_get_dict_set_other {V} (d : dict V) (key key' : string) (v : V) :
  key' <> key -> dict_get (dict_set d key v) key' = dict_get d key'.
Proof.
  intros Hne. induction d as [|[k x] d IH]; cbn [dict_set dict_get].
  - destruct (String.eqb key key') eqn:E; [|reflexivity].
    apply String.eqb_eq in E. congruence.
  - destruct (String.eqb k key) eqn:E; cbn [dict_get].
    + apply String.eqb_eq in E. subst k.
      destruct (String.eqb key key') eqn:E'; [|reflexivity].
      apply String.eqb_eq in E'. congruence.
    + now rewrite IH.
Qed.

Lemma merged_other (dst src : dict value) (key : string) :
  ~ In key (dict_keys src) -> dict_get (merged dst src) key = dict_get dst key.
Proof.
  unfold merged. revert dst.
  induction src as [|[k x] src IH]; intros dst Hnot; cbn [fold_left fst snd];
    [reflexivity|].
  cbn [dict_keys map fst In] in Hnot.
  rewrite IH by tauto. apply dict_get_dict_set_other. intros ->. tauto.
Qed.

Lemma merged_get (dst src : dict value) (key : string) (v : value) :
  wf_dict src -> dict_get src key = Some v ->
  dict_get (merged dst src) key = Some v.
Proof.
  unfold wf_dict, merged. revert dst.
  induction src as [|[k x] src IH]; intros dst Hwf;
    cbn [dict_get fold_left fst snd dict_keys map]; [discriminate|].
  apply NoDup_cons in Hwf as [Hk Hwf].
  destruct (String.eqb k key) eqn:E.
  - apply String.eqb_eq in E. subst k. intros [= ->].
    change (dict_get (merged (dict_set dst key v) src) key = Some v).
    rewrite merged_other; [apply dict_get_dict_set|].
    intros Hin. apply Hk. now apply list_elem_of_In.
  - intros Hget. now apply IH.
Qed.

Lemma update_loop_spec (self : loc) (cls : class) (items dst : dict value)
      (h : heap) :
  h !! self = Some (AttrDict cls dst) ->
  update_loop self items h
  = Ok (tt, <[self := AttrDict cls (merged dst items)]> h).
Proof.
  revert dst h. induction items as [|[k v] items IH]; intros dst h Hself.
  - cbn. now rewrite insert_id.
  - cbn [update_loop]. unfold bind, __setattr__. rewrite Hself.
    rewrite (IH (dict_set dst k v)) by apply lookup_insert_eq.
    now rewrite insert_insert_eq.
Qed.

Lemma TrackInfo_copy_spec (t : loc) (fields : dict value) (h : heap) :
  h !! t = Some (AttrDict TrackInfoClass fields) ->
  TrackInfo.copy t h
  = Ok (fresh (dom h),
        <[fresh (dom h) :=
            AttrDict TrackInfoClass (merged TrackInfo.init_items fields)]> h).
Proof.
  intros Ht. unfold TrackInfo.copy, TrackInfo.init, bind, alloc, update.
  assert (Hne : fresh (dom h) <> t).
  { intros E. apply (is_fresh (dom h)). rewrite E. apply elem_of_dom. eauto. }
  rewrite lookup_insert_ne, Ht by exact Hne.
  rewrite (update_loop_spec _ TrackInfoClass fields TrackInfo.init_items)
    by apply lookup_insert_eq.
  now rewrite insert_insert_eq.
Qed.

Lemma is_track_weaken (h h' : heap) (t : loc) :
  h ⊆ h' -> is_track h t -> is_track h' t.
Proof.
  intros Hsub [fields Ht]. exists fields. now apply (lookup_weaken h h').
Qed.

Lemma copy_tracks_spec (ts : list loc) (h : heap) :
  Forall (is_track h) ts ->
  exists ts' h',
    AlbumInfo.copy_tracks (map VRef ts) h = Ok (map VRef ts', h')
    /\ h ⊆ h'
    /\ Forall (fun t' => (t' ∉ dom h) /\ (t' ∈ dom h')) ts'
    /\ NoDup ts'
    /\ Forall2
         (fun t t' =>
            forall fields,
              h !! t = Some (AttrDict TrackInfoClass fields) ->
              h' !! t'
              = Some (AttrDict TrackInfoClass
                        (merged TrackInfo.init_items fields)))
         ts ts'.
Proof.
  revert h. induction ts as [|t ts IH]; intros h Hts.
  - exists [], h. cbn. repeat split; try constructor. reflexivity.
  - apply Forall_cons in Hts as [[fields Ht] Hts].
    set (t1 := fresh (dom h)).
    set (h1 := <[t1 := AttrDict TrackInfoClass
                         (merged TrackInfo.init_items fields)]> h).
    assert (Hfresh : h !! t1 = None)
      by (apply not_elem_of_dom, is_fresh).
    assert (Hsub1 : h ⊆ h1) by now apply insert_subseteq.
    destruct (IH h1) as (ts' & h' & Erun & Hsub & Hnew & Hnd & Hcopies).
    { eapply Forall_impl; [exact Hts|]. intros t0. now apply is_track_weaken. }
    exists (t1 :: ts'), h'. split; [|split; [|split; [|split]]].
    + cbn [map AlbumInfo.copy_tracks]. unfold bind at 1.
      unfold AlbumInfo.copy_track. rewrite Ht.
      rewrite (TrackInfo_copy_spec t fields h Ht). fold t1 h1.
      unfold bind at 1. rewrite Erun. reflexivity.
    + now transitivity h1.
    + constructor.
      * split; [now apply not_elem_of_dom|].
        apply elem_of_dom. exists (AttrDict TrackInfoClass
                                     (merged TrackInfo.init_items fields)).
        apply (lookup_weaken h1 h'); [apply lookup_insert_eq|exact Hsub].
      * eapply Forall_impl; [exact Hnew|]. intros t' [Hnot Hin].
        split; [|exact Hin]. intros Hdom. apply Hnot.
        apply elem_of_dom in Hdom as [o Ho]. apply elem_of_dom. exists o.
        now apply (lookup_weaken h h1).
    + apply NoDup_cons. split; [|exact Hnd].
      intros Hin. rewrite Forall_forall in Hnew.
      destruct (Hnew t1 Hin) as [Hnot _]. apply Hnot.
      apply elem_of_dom. eexists. apply lookup_insert_eq.
    + constructor.
      * intros fields0 Ht0. rewrite Ht in Ht0. injection Ht0 as <-.
        apply (lookup_weaken h1 h'); [apply lookup_insert_eq|exact Hsub].
      * eapply Forall2_impl; [exact Hcopies|]. intros t0 t' H fields0 Ht0.
        apply H. now apply (lookup_weaken h h1).
Qed.

(** C9: [AlbumInfo.copy] makes a new album whose [tracks] is a new list
    of new [TrackInfo] objects, one per track of the original, each
    holding the attributes of the track it copies; no object of the heap
    before the copy is changed; the tracks of the copy are objects
    different from every track of the original; and setting an attribute
    (the title, say) of a track of the copy changes that track and leaves
    every object that existed before the copy, the original's tracks
    among them, as it was. *)
Theorem album_copy_deep_copies_tracks (h : heap) (album l : loc)
      (ts : list loc) :
  album_tracks h album l ts ->
  Forall (is_track h) ts ->
  exists dupe l' ts' h',
    AlbumInfo.copy album h = Ok (dupe, h')
    /\ (dupe ∉ dom h)
    /\ (l' ∉ dom h)
    /\ h ⊆ h'
    /\ album_tracks h' dupe l' ts'
    /\ length ts' = length ts
    /\ (forall i t t',
          ts !! i = Some t -> ts' !! i = Some t' ->
          (t' ∉ dom h) /\ track_copy_of h h' t t')
    /\ (forall t t', In t ts -> In t' ts' -> t <> t')
    /\ (forall t' key v,
          In t' ts' ->
          exists h'',
            __setattr__ t' key v h' = Ok (tt, h'')
            /\ __getattr__ t' key h'' = Ok (v, h'')
            /\ (forall obj, obj ∈ dom h -> h'' !! obj = h !! obj)).
Proof.
  intros (items & Halbum & Htracks & Hlist) Hts.
  set (e := fresh (dom h)).
  set (h1 := <[e := PyList []]> h).
  set (d := fresh (dom h1)).
  set (h3 := <[d := AttrDict AlbumInfoClass
                      (merged (AlbumInfo.init_items (VRef e)) items)]> h1).
  assert (He : h !! e = None) by (apply not_elem_of_dom, is_fresh).
  assert (Hd1 : h1 !! d = None) by (apply not_elem_of_dom, is_fresh).
  assert (Hsub1 : h ⊆ h1) by now apply insert_subseteq.
  assert (Hsub3 : h ⊆ h3).
  { transitivity h1; [exact Hsub1|]. now apply insert_subseteq. }
  assert (Hd : h !! d = None).
  { destruct (h !! d) eqn:E; [|reflexivity].
    apply (lookup_weaken h h1) in E; [congruence|exact Hsub1]. }
  destruct (copy_tracks_spec ts h3) as (ts' & h4 & Erun & Hsub4 & Hnew & Hnd & Hcopies).
  { eapply Forall_impl; [exact Hts|]. intros t. now apply is_track_weaken. }
  set (l' := fresh (dom h4)).
  set (h5 := <[l' := PyList (map VRef ts')]> h4).
  set (dupe_items := dict_set (merged (AlbumInfo.init_items (VRef e)) items)
                       "tracks" (VRef l')).
  set (h6 := <[d := AttrDict AlbumInfoClass dupe_items]> h5).
  assert (Hl' : h4 !! l' = None) by (apply not_elem_of_dom, is_fresh).
  assert (Hd4 : h4 !! d
                = Some (AttrDict AlbumInfoClass
                          (merged (AlbumInfo.init_items (VRef e)) items))).
  { apply (lookup_weaken h3 h4); [apply lookup_insert_eq|exact Hsub4]. }
  assert (Hdl : d <> l') by (intros E; rewrite E in Hd4; congruence).
  assert (Hsub5 : h ⊆ h5).
  { transitivity h4; [now transitivity h3|]. now apply insert_subseteq. }
  assert (Hsub6 : h ⊆ h6) by now apply insert_subseteq_r.
  assert (Hnew' : forall t', In t' ts' ->
                    h !! t' = None /\ t' <> d /\ t' <> l' /\ is_Some (h4 !! t')).
  { intros t' Hin. rewrite Forall_forall in Hnew.
    destruct (Hnew t' (proj2 (list_elem_of_In _ _) Hin)) as [Hnot Hin4].
    apply not_elem_of_dom in Hnot. apply elem_of_dom in Hin4.
    repeat split.
    - destruct (h !! t') eqn:E; [|reflexivity].
      apply (lookup_weaken h h3) in E; [congruence|exact Hsub3].
    - intros ->. unfold h3 in Hnot. now rewrite lookup_insert_eq in Hnot.
    - intros ->. destruct Hin4 as [o Ho]. congruence.
    - exact Hin4. }
  exists d, l', ts', h6.
  split; [|split; [|split; [|split; [|split; [|split; [|split; [|split]]]]]]].
  - unfold AlbumInfo.copy, AlbumInfo.init, bind, alloc. fold e h1 d.
    unfold update.
    rewrite lookup_insert_ne
      by (intros E; rewrite E in Hd1;
          apply (lookup_weaken h h1) in Halbum; [congruence|exact Hsub1]).
    rewrite (lookup_weaken h h1 _ _ Halbum Hsub1).
    rewrite (update_loop_spec d AlbumInfoClass items
               (AlbumInfo.init_items (VRef e)))
      by apply lookup_insert_eq.
    rewrite insert_insert_eq. fold h3.
    unfold __getattr__ at 1.
    rewrite (lookup_weaken h h3 _ _ Halbum Hsub3), Htracks.
    unfold AlbumInfo.copy_all.
    rewrite (lookup_weaken h h3 _ _ Hlist Hsub3).
    unfold bind. rewrite Erun. unfold alloc, ret. cbv beta iota zeta. fold l'.
    unfold __setattr__. rewrite lookup_insert_ne by (intros E; now apply Hdl).
    rewrite Hd4. reflexivity.
  - now apply not_elem_of_dom.
  - apply not_elem_of_dom. destruct (h !! l') eqn:E; [|reflexivity].
    apply (lookup_weaken h h4) in E; [congruence|now transitivity h3].
  - exact Hsub6.
  - exists dupe_items. split; [apply lookup_insert_eq|].
    split; [apply dict_get_dict_set|].
    unfold h6. rewrite lookup_insert_ne by exact Hdl. apply lookup_insert_eq.
  - symmetry. eapply Forall2_length. exact Hcopies.
  - intros i t t' Hi Hi'.
    assert (Hin' : In t' ts').
    { apply list_elem_of_In. eapply list_elem_of_lookup_2. exact Hi'. }
    destruct (Hnew' t' Hin') as (Hnone & Hned & Hnel & _).
    split; [now apply not_elem_of_dom|].
    rewrite Forall_forall in Hts.
    destruct (Hts t (list_elem_of_lookup_2 _ _ _ Hi)) as [fields Ht].
    exists fields, (merged TrackInfo.init_items fields).
    split; [exact Ht|]. split.
    + unfold h6, h5. rewrite !lookup_insert_ne by congruence.
      eapply Forall2_lookup_lr in Hcopies; [|exact Hi|exact Hi'].
      apply Hcopies. now apply (lookup_weaken h h3).
    + intros Hwf key v. now apply merged_get.
  - intros t t' Hin Hin' ->.
    destruct (Hnew' t' Hin') as (Hnone & _).
    rewrite Forall_forall in Hts.
    destruct (Hts t' (proj2 (list_elem_of_In _ _) Hin)) as [fields Ht].
    congruence.
  - intros t' key v Hin'.
    destruct (Hnew' t' Hin') as (Hnone & Hned & Hnel & [o Ho]).
    assert (Ht6 : h6 !! t' = h4 !! t').
    { unfold h6, h5. now rewrite !lookup_insert_ne by congruence. }
    assert (Htrack : exists fields, h4 !! t' = Some (AttrDict TrackInfoClass fields)).
    { apply list_elem_of_In, list_elem_of_lookup_1 in Hin' as [i Hi'].
      destruct (Forall2_lookup_r _ _ _ _ _ Hcopies Hi') as (t & Hi & Hcopy).
      rewrite Forall_forall in Hts.
      destruct (Hts t (list_elem_of_lookup_2 _ _ _ Hi)) as [fields Ht].
      exists (merged TrackInfo.init_items fields). apply Hcopy.
      exact (lookup_weaken h h3 _ _ Ht Hsub3). }
    destruct Htrack as [fields Ht4].
    eexists. unfold __setattr__, __getattr__. rewrite Ht6, Ht4.
    split; [reflexivity|]. rewrite lookup_insert_eq, dict_get_dict_set.
    split; [reflexivity|].
    intros obj [o' Ho']%elem_of_dom.
    rewrite lookup_insert_ne by (intros ->; congruence).
    rewrite Ho'. now apply (lookup_weaken h h6).
Qed.

Lemma sample_album_tracks :
  album_tracks sample_heap 1%positive 2%positive [3%positive; 4%positive].
Proof. eexists. repeat split; reflexivity. Defined.

Lemma sample_tracks :
  Forall (is_track sample_heap) [3%positive; 4%positive].
Proof. repeat constructor; eexists; reflexivity. Defined.

(** The copy of the sample album is the object 6 with the tracks 7 and
    8; a new title for the track 7 leaves the title of the track 3. *)
Example sample_copy_then_retitle :
  exists h' h'',
    AlbumInfo.copy 1%positive sample_heap = Ok (6%positive, h')
    /\ h' !! 9%positive = Some (PyList [VRef 7%positive; VRef 8%positive])
    /\ __getattr__ 6%positive "tracks" h' = Ok (VRef 9%positive, h')
    /\ __getattr__ 7%positive "title" h' = Ok (VStr "Help!", h')
    /\ __setattr__ 7%positive "title" (VStr "Yesterday") h' = Ok (tt, h'')
    /\ __getattr__ 7%positive "title" h'' = Ok (VStr "Yesterday", h'')
    /\ __getattr__ 3%positive "title" h'' = Ok (VStr "Help!", h'').
Proof.
  eexists _, _. split; [vm_compute; reflexivity|].
  split; [vm_compute; reflexivity|]. split; [vm_compute; reflexivity|].
  split; [vm_compute; reflexivity|]. split; [vm_compute; reflexivity|].
  split; vm_compute; reflexivity.
Qed.

Lemma album_copy_deep_copies_tracks_witness :
  album_tracks sample_heap 1%positive 2%positive [3%positive; 4%positive]
  /\ Forall (is_track sample_heap) [3%positive; 4%positive]
  /\ exists dupe l' ts' h',
       AlbumInfo.copy 1%positive sample_heap = Ok (dupe, h')
       /\ album_tracks h' dupe l' ts'
       /\ length ts' = 2%nat
       /\ (forall t t', In t [3%positive; 4%positive] -> In t' ts' -> t <> t')
       /\ (forall t' key v,
             In t' ts' ->
             exists h'',
               __setattr__ t' key v h' = Ok (tt, h'')
               /\ __getattr__ t' key h'' = Ok (v, h'')
               /\ (forall obj, obj ∈ dom sample_heap ->
                               h'' !! obj = sample_heap !! obj)).
Proof.
  split; [exact sample_album_tracks|]. split; [exact sample_tracks|].
  destruct (album_copy_deep_copies_tracks sample_heap 1%positive 2%positive
              [3%positive; 4%positive] sample_album_tracks sample_tracks)
    as (dupe & l' & ts' & h' & Ecopy & _ & _ & _ & Halbum & Hlen & _
        & Hdistinct & Hset).
  exists dupe, l', ts', h'. repeat split; assumption.
Defined.

End CandidateFacts.
